(** * Dekereke Pivot Tables: the filtering and pivot-aggregation engine

    A shallow embedding of the core of [docs/app.js]: the condition
    evaluator ([evaluateCondition]), the filter-group evaluator
    ([evaluateFilterGroup], [applyFilters]), the pivot aggregator
    ([generatePivotTable]) and the field-value index ([getFieldValues]),
    together with the part of [handleFileSelect] that replaces the record
    store.

    Records are JavaScript objects whose own keys are XML tag names and whose
    values are strings; they are modelled as [gmap string string].  Properties
    inherited from [Object.prototype] are outside the model.  Strings are
    sequences of 8-bit characters. *)

From Stdlib Require Import ZArith Ascii String.
From stdpp Require Import base tactics option list strings gmap fin_maps sorting.

Local Open Scope Z_scope.

(** ** Completions and the console

    [new RegExp] is the only primitive of the engine that throws.  A
    computation yields a completion (a value, or a thrown error) and the lines
    it wrote with [console.error]. *)

Inductive error : Type :=
  | SyntaxError (message : string).

Inductive completion (A : Type) : Type :=
  | Normal (a : A)
  | Throw (e : error).
Arguments Normal {A} a.
Arguments Throw {A} e.

Inductive log_entry : Type :=
  | console_error (label : string) (e : error).

Global Instance error_eq_dec : EqDecision error.
Proof. solve_decision. Defined.

Global Instance completion_eq_dec `{EqDecision A} : EqDecision (completion A).
Proof. solve_decision. Defined.

Definition JS (A : Type) : Type := completion A * list log_entry.

Global Instance JS_ret : MRet JS := λ A a, (Normal a, []).

Global Instance JS_bind : MBind JS := λ A B f m,
  match m with
  | (Normal a, out) => let '(r, out') := f a in (r, out ++ out')
  | (Throw e, out) => (Throw e, out)
  end.

Definition lift {A} (c : completion A) : JS A := (c, []).

Definition log (label : string) (e : error) : JS unit :=
  (Normal tt, [console_error label e]).

(** [try { body } catch (error) { handler error }] *)
Definition try_catch {A} (body : JS A) (handler : error → JS A) : JS A :=
  match body with
  | (Normal a, out) => (Normal a, out)
  | (Throw e, out) => let '(r, out') := handler e in (r, out ++ out')
  end.

(** The value a computation returns to its caller, and what it logged. *)
Definition returns {A} (m : JS A) (a : A) : Prop := m.1 = Normal a.
Definition logged {A} (m : JS A) : list log_entry := m.2.

Global Instance returns_dec `{EqDecision A} (m : JS A) (a : A) : Decision (returns m a).
Proof. unfold returns. apply _. Defined.

(** ** The host: built-ins of the JavaScript engine

    [String.prototype.toLowerCase], the [RegExp] constructor with flag [i]
    and [RegExp.prototype.test], and [String.prototype.localeCompare] with
    the options [{ numeric: true, sensitivity: 'base' }] are supplied by the
    browser.  The engine is verified against this interface. *)

Class Host : Type := {
  toLowerCase : string → string;
  regexp : Type;
  (** [new RegExp(pattern, 'i')]; [Throw] on a malformed pattern *)
  RegExp_new : string → completion regexp;
  (** [regex.test(s)] for a regex without the [g] and [y] flags *)
  RegExp_test : regexp → string → bool;
  (** [a.localeCompare(b, undefined, {numeric: true, sensitivity: 'base'})] *)
  localeCompare : string → string → Z
}.

(** ** String primitives *)

(** [s.startsWith(t)] *)
Fixpoint startsWith (s t : string) : bool :=
  match t, s with
  | EmptyString, _ => true
  | String _ _, EmptyString => false
  | String b t', String a s' => Ascii.eqb a b && startsWith s' t'
  end.

(** [s.includes(t)] *)
Fixpoint includes (s t : string) : bool :=
  startsWith s t ||
  match s with
  | EmptyString => false
  | String _ s' => includes s' t
  end.

(** [s.endsWith(t)] *)
Fixpoint endsWith (s t : string) : bool :=
  String.eqb s t ||
  match s with
  | EmptyString => false
  | String _ s' => endsWith s' t
  end.

(** [x || d] where [x] is a property read: a string, or [undefined] when the
    key is absent.  The empty string and [undefined] are the falsy cases. *)
Definition or_else (x : option string) (d : string) : string :=
  match x with
  | Some s => if decide (s = "") then d else s
  | None => d
  end.

(** [Array.prototype.sort(cmp)]: a stable sort; for a consistent comparator
    every stable sort gives this result. *)
Section Sort.
Context {A : Type} (cmp : A → A → Z).

Fixpoint sort_insert (x : A) (l : list A) : list A :=
  match l with
  | [] => [x]
  | y :: l' => if decide (cmp x y ≤ 0) then x :: y :: l' else y :: sort_insert x l'
  end.

Fixpoint sort (l : list A) : list A :=
  match l with
  | [] => []
  | x :: l' => sort_insert x (sort l')
  end.
End Sort.

(** [new Set()] with [add]: a JavaScript set keeps insertion order, which
    [Array.from] exposes. *)
Fixpoint Set_add (x : string) (s : list string) : list string :=
  match s with
  | [] => [x]
  | y :: s' => if decide (x = y) then y :: s' else y :: Set_add x s'
  end.

(** ** Data model *)

Record condition : Type := Condition {
  cond_id : Z;
  field : string;
  operator : string;
  value : string;
  values : list string;
  useRegex : bool;
  negate : bool
}.

Record group : Type := Group {
  group_id : Z;
  logic : string;
  conditions : list condition
}.

(** The nine operators offered by the operator [<select>]. *)
Definition recognized : list string :=
  ["equals"; "not-equals"; "contains"; "not-contains"; "starts-with";
   "ends-with"; "empty"; "not-empty"; "in-list"].

(** [{...condition, negate: !condition.negate}] *)
Definition toggleNegate (c : condition) : condition :=
  Condition (cond_id c) (field c) (operator c) (value c) (values c)
            (useRegex c) (negb (negate c)).

Section Engine.
Context `{H : Host}.

(** [function naturalSort(a, b)] *)
Definition naturalSort (a b : string) : Z := localeCompare a b.

(** ** Condition evaluator *)

(** The [switch] of the regex branch. *)
Definition regex_switch (op testValue fieldValue : string) (regex : regexp) : JS bool :=
  if decide (op = "equals" ∨ op = "contains") then
    mret (RegExp_test regex fieldValue)
  else if decide (op = "not-equals" ∨ op = "not-contains") then
    mret (negb (RegExp_test regex fieldValue))
  else if decide (op = "starts-with") then
    r ← lift (RegExp_new ("^" +:+ testValue));
    mret (RegExp_test r fieldValue)
  else if decide (op = "ends-with") then
    r ← lift (RegExp_new (testValue +:+ "$"));
    mret (RegExp_test r fieldValue)
  else mret true.

(** The [switch] of the plain branch. *)
Definition plain_switch (op testValue fieldValue : string) : bool :=
  let fieldLower := toLowerCase fieldValue in
  let testLower := toLowerCase testValue in
  if decide (op = "equals") then bool_decide (fieldLower = testLower)
  else if decide (op = "not-equals") then negb (bool_decide (fieldLower = testLower))
  else if decide (op = "contains") then includes fieldLower testLower
  else if decide (op = "not-contains") then negb (includes fieldLower testLower)
  else if decide (op = "starts-with") then startsWith fieldLower testLower
  else if decide (op = "ends-with") then endsWith fieldLower testLower
  else if decide (op = "empty") then bool_decide (fieldValue = "")
  else if decide (op = "not-empty") then negb (bool_decide (fieldValue = ""))
  else true.

(** The value of the variable [result] of [evaluateCondition] when the
    final [return] is reached. *)
Definition conditionResult (record : gmap string string) (condition : condition) : JS bool :=
  let fieldValue := or_else (record !! field condition) "" in
  if decide (operator condition = "in-list") then
    if decide (length (values condition) = 0%nat) then mret true
    else mret (existsb (λ val,
                 let valLower := toLowerCase val in
                 bool_decide (toLowerCase fieldValue = valLower))
               (values condition))
  else
    let testValue := value condition in
    if decide (testValue = "" ∧ operator condition ≠ "empty"
               ∧ operator condition ≠ "not-empty")
    then mret true
    else
      try_catch
        (if useRegex condition then
           regex ← lift (RegExp_new testValue);
           regex_switch (operator condition) testValue fieldValue regex
         else mret (plain_switch (operator condition) testValue fieldValue))
        (λ error, log "Filter evaluation error:" error;; mret false).

(** [function evaluateCondition(record, condition)] *)
Definition evaluateCondition (record : gmap string string) (condition : condition) : JS bool :=
  result ← conditionResult record condition;
  mret (if negate condition then negb result else result).

(** ** Filter group evaluator *)

(** [Array.prototype.every], [some] and [filter] with a callback that is
    itself a computation: the callback runs left to right, [every] stops at
    the first [false], [some] at the first [true]. *)
Fixpoint every {A} (f : A → JS bool) (l : list A) : JS bool :=
  match l with
  | [] => mret true
  | x :: l' => b ← f x; if b : bool then every f l' else mret false
  end.

Fixpoint some {A} (f : A → JS bool) (l : list A) : JS bool :=
  match l with
  | [] => mret false
  | x :: l' => b ← f x; if b : bool then mret true else some f l'
  end.

Fixpoint Array_filter {A} (f : A → JS bool) (l : list A) : JS (list A) :=
  match l with
  | [] => mret []
  | x :: l' =>
      b ← f x;
      rest ← Array_filter f l';
      mret (if b : bool then x :: rest else rest)
  end.

(** [function evaluateFilterGroup(record, group)] *)
Definition evaluateFilterGroup (record : gmap string string) (group : group) : JS bool :=
  if decide (length (conditions group) = 0%nat) then mret true
  else if decide (logic group = "AND") then
    every (λ condition, evaluateCondition record condition) (conditions group)
  else
    some (λ condition, evaluateCondition record condition) (conditions group).

(** ** Pivot aggregator *)

Record pivot : Type := Pivot {
  pivotMap : gmap string (list (gmap string string));
  rowValues : list string;
  colValues : list string;
  rowField : string;
  colField : string
}.

(** The template literal [`${rowVal}|||${colVal}`]. *)
Definition pivotKey (rowVal colVal : string) : string :=
  rowVal +:+ "|||" +:+ colVal.

(** The key under which [generatePivotTable] files a record. *)
Definition recordKey (rowField colField : string) (record : gmap string string) : string :=
  pivotKey (or_else (record !! rowField) "(empty)")
           (or_else (record !! colField) "(empty)").

(** One iteration of the [records.forEach] loop, on the three collections
    it mutates. *)
Definition pivotStep (rowField colField : string)
    (acc : gmap string (list (gmap string string)) * list string * list string)
    (record : gmap string string)
    : gmap string (list (gmap string string)) * list string * list string :=
  let '(pivotMap, rowValues, colValues) := acc in
  let rowVal := or_else (record !! rowField) "(empty)" in
  let colVal := or_else (record !! colField) "(empty)" in
  let rowValues := Set_add rowVal rowValues in
  let colValues := Set_add colVal colValues in
  let key := pivotKey rowVal colVal in
  let pivotMap :=
    match pivotMap !! key with
    | None => <[key := []]> pivotMap
    | Some _ => pivotMap
    end in
  (<[key := default [] (pivotMap !! key) ++ [record]]> pivotMap, rowValues, colValues).

(** [function generatePivotTable(records, rowField, colField)] *)
Definition generatePivotTable (records : list (gmap string string))
    (rowField colField : string) : pivot :=
  let '(pivotMap, rowValues, colValues) :=
    foldl (pivotStep rowField colField) (∅, [], []) records in
  let sortedRows := sort naturalSort rowValues in
  let sortedCols := sort naturalSort colValues in
  Pivot pivotMap sortedRows sortedCols rowField colField.

(** [pivotData.pivotMap.get(key) || []], the read done by [renderPivotTable]
    and [showDatasheet]. *)
Definition bucket (p : pivot) (key : string) : list (gmap string string) :=
  default [] (pivotMap p !! key).

(** The sum of [entries.length] over the entries of a pivot map. *)
Definition bucketTotal (m : gmap string (list (gmap string string))) : nat :=
  map_fold (λ _ entries n, (length entries + n)%nat) 0%nat m.

(** ** Session state

    The members of the global [state] that the engine reads or writes. *)
Record state : Type := State {
  database : option string;
  fields : list string;
  records : list (gmap string string);
  filterGroups : list group;
  fieldValuesCache : gmap string (list string)
}.

(** The initial value of [state]. *)
Definition initial : state := State None [] [] [] ∅.

(** [function applyFilters(records)], reading [state.filterGroups] *)
Definition applyFilters (st : state) (records : list (gmap string string))
    : JS (list (gmap string string)) :=
  if decide (length (filterGroups st) = 0%nat) then mret records
  else
    Array_filter
      (λ record, some (λ group, evaluateFilterGroup record group) (filterGroups st))
      records.

(** ** Field value index *)

(** The body of the [state.records.forEach] loop of [getFieldValues]. *)
Definition collectValue (fieldName : string) (valuesSet : list string)
    (record : gmap string string) : list string :=
  match record !! fieldName with
  | Some value => if decide (value = "") then valuesSet else Set_add value valuesSet
  | None => valuesSet
  end.

(** The sorted distinct non-empty values of a field over a record list:
    what [getFieldValues] computes on a cache miss. *)
Definition fieldValuesOf (records : list (gmap string string)) (fieldName : string)
    : list string :=
  sort naturalSort (foldl (collectValue fieldName) [] records).

(** [function getFieldValues(fieldName)], threading [state].  An array is
    truthy even when empty, so every cached entry is a hit. *)
Definition getFieldValues (fieldName : string) (st : state) : list string * state :=
  match fieldValuesCache st !! fieldName with
  | Some cached => (cached, st)
  | None =>
      let sortedValues := fieldValuesOf (records st) fieldName in
      (sortedValues,
       State (database st) (fields st) (records st) (filterGroups st)
             (<[fieldName := sortedValues]> (fieldValuesCache st)))
  end.

(** ** Loading a dataset *)

(** A selected file: its name and the outcome of
    [extractDataFromXML(await parseXMLFile(file))]. *)
Record file : Type := File {
  name : string;
  parsed : completion (list (gmap string string) * list string)
}.

(** [async function handleFileSelect(event)], its effect on [state];
    [event] is [event.target.files[0]].  A parse error is caught and an
    empty record list is rejected; both leave [state] as it was. *)
Definition handleFileSelect (event : option file) (st : state) : state :=
  match event with
  | None => st
  | Some file =>
      match parsed file with
      | Throw _ => st
      | Normal (records, fields) =>
          if decide (length records = 0%nat) then st
          else State (Some (name file)) fields records
                     (filterGroups st) (fieldValuesCache st)
      end
  end.

End Engine.

(** ** Extracting the dataset *)

(** A child element of a [data_form]: its tag name, [children.length] and
    [textContent.trim()]. *)
Record element : Type := Element {
  tagName : string;
  childCount : nat;
  text : string
}.





(** ** Column preferences *)

(** [Array.prototype.indexOf]: the first index, or [-1]. *)
Fixpoint indexOf (l : list string) (x : string) : Z :=
  match l with
  | [] => -1
  | y :: l' =>
      if decide (y = x) then 0
      else let i := indexOf l' x in if decide (i < 0) then -1 else i + 1
  end.

(** [Array.prototype.splice(start, deleteCount, ...items)]: a negative
    [start] counts from the end, and both arguments are clamped to the
    array. *)
Definition splice {A} (l : list A) (start : Z) (deleteCount : nat) (items : list A)
    : list A :=
  let len := Z.of_nat (length l) in
  let actualStart :=
    Z.to_nat (if decide (start < 0) then Z.max (len + start) 0 else Z.min start len) in
  take actualStart l ++ items ++ drop (actualStart + deleteCount) l.

(** The entry of [state.columnPreferences] for one database. *)
Record prefs : Type := Prefs {
  visible : gmap string bool;
  order : list string
}.

(** The entry [renderDatasheet] creates for a database that has none. *)
Definition initialPrefs (fields : list string) : prefs :=
  Prefs (foldl (λ visible field, <[field := true]> visible) ∅ fields) fields.






(** [function reorderColumns(draggedField, targetField)], on the entry of
    the current database. *)
Definition reorderColumns (draggedField targetField : string) (p : prefs) : prefs :=
  let draggedIndex := indexOf (order p) draggedField in
  let order1 := splice (order p) draggedIndex 1 [] in
  let newTargetIndex := indexOf order1 targetField in
  Prefs (visible p) (splice order1 newTargetIndex 0 [draggedField]).


(** ** The rendered pivot table *)

(** A cell of the table body written by [renderPivotTable]: a button that
    carries its row value, its column value and the number of entries, or
    the empty cell. *)
Inductive cell : Type :=
  | cell_btn (row col : string) (count : nat)
  | empty_cell.

Definition cellCount (c : cell) : nat :=
  match c with
  | cell_btn _ _ count => count
  | empty_cell => 0%nat
  end.

(** The rows of cells that [renderPivotTable] writes for [pivotData]. *)
Definition pivotCells (pivotData : pivot) : list (list cell) :=
  map (λ rowVal,
    map (λ colVal,
      let key := pivotKey rowVal colVal in
      let entries := bucket pivotData key in
      let count := length entries in
      if decide (0 < count)%nat then cell_btn rowVal colVal count else empty_cell)
    (colValues pivotData))
  (rowValues pivotData).

(** ** The whole session

    The global [state] with the members the user interface adds to the
    engine's. *)

(** [state.currentFilter] *)
Record datasheet : Type := Datasheet {
  sheet_rowVal : string;
  sheet_colVal : string;
  sheet_records : list (gmap string string)
}.

Record app : Type := App {
  core : state;
  nextFilterGroupId : Z;
  nextFilterConditionId : Z;
  pivotConfig : option string * option string;
  pivotData : option pivot;
  filteredRecordsCache : option (list (gmap string string));
  currentFilter : option datasheet;
  columnPreferences : gmap string prefs
}.

(** The initial value of the global [state]. *)
Definition start : app := App initial 1 1 (None, None) None None None ∅.

Definition set_core (s : state) (a : app) : app :=
  App s (nextFilterGroupId a) (nextFilterConditionId a) (pivotConfig a)
      (pivotData a) (filteredRecordsCache a) (currentFilter a) (columnPreferences a).

Definition set_filterGroups (groups : list group) (s : state) : state :=
  State (database s) (fields s) (records s) groups (fieldValuesCache s).

(** [l.find(P)] followed by a mutation of the object found: the first
    element that satisfies [P] is replaced. *)
Fixpoint updateFirst {A} (P : A → bool) (f : A → A) (l : list A) : list A :=
  match l with
  | [] => []
  | x :: l' => if P x then f x :: l' else x :: updateFirst P f l'
  end.

Definition hasGroupId (groupId : Z) (g : group) : bool :=
  bool_decide (group_id g = groupId).

Definition hasConditionId (conditionId : Z) (c : condition) : bool :=
  bool_decide (cond_id c = conditionId).

Definition set_conditions (conditions : list condition) (g : group) : group :=
  Group (group_id g) (logic g) conditions.

(** A control of a rendered condition, as [updateConditionField] reads it:
    its class and its [value] or [checked]. *)
Inductive control_kind : Type :=
  | condition_field (value : string)
  | condition_operator (value : string)
  | condition_value (value : string)
  | condition_regex (checked : bool)
  | condition_negate (checked : bool)
  | other_control.

Record control : Type := Control {
  groupId : Z;
  conditionId : Z;
  kind : control_kind
}.

(** The [if ... else if] chain of [updateConditionField]. *)
Definition applyControl (k : control_kind) (c : condition) : condition :=
  match k with
  | condition_field v =>
      Condition (cond_id c) v (operator c) (value c) (values c) (useRegex c) (negate c)
  | condition_operator v =>
      Condition (cond_id c) (field c) v (value c) (values c) (useRegex c) (negate c)
  | condition_value v =>
      Condition (cond_id c) (field c) (operator c) v (values c) (useRegex c) (negate c)
  | condition_regex b =>
      Condition (cond_id c) (field c) (operator c) (value c) (values c) b (negate c)
  | condition_negate b =>
      Condition (cond_id c) (field c) (operator c) (value c) (values c) (useRegex c) b
  | other_control => c
  end.

(** [function createFilterGroup()] *)
Definition createFilterGroup (a : app) : group * app :=
  let group := Group (nextFilterGroupId a) "AND" [] in
  (group,
   App (set_filterGroups (filterGroups (core a) ++ [group]) (core a))
       (nextFilterGroupId a + 1) (nextFilterConditionId a) (pivotConfig a)
       (pivotData a) (filteredRecordsCache a) (currentFilter a) (columnPreferences a)).

(** [function addFilterCondition(groupId)]; [None] is [undefined]. *)
Definition addFilterCondition (groupId : Z) (a : app) : option condition * app :=
  match List.find (hasGroupId groupId) (filterGroups (core a)) with
  | None => (None, a)
  | Some _ =>
      let condition :=
        Condition (nextFilterConditionId a) (or_else (head (fields (core a))) "")
                  "equals" "" [] false false in
      (Some condition,
       App (set_filterGroups
              (updateFirst (hasGroupId groupId)
                 (λ g, set_conditions (conditions g ++ [condition]) g)
                 (filterGroups (core a)))
              (core a))
           (nextFilterGroupId a) (nextFilterConditionId a + 1) (pivotConfig a)
           (pivotData a) (filteredRecordsCache a) (currentFilter a) (columnPreferences a))
  end.

(** [function updateConditionField(element)] *)
Definition updateConditionField (element : control) (a : app) : app :=
  set_core
    (set_filterGroups
       (updateFirst (hasGroupId (groupId element))
          (λ g, set_conditions
                  (updateFirst (hasConditionId (conditionId element))
                     (applyControl (kind element)) (conditions g)) g)
          (filterGroups (core a)))
       (core a))
    a.

(** The [change] listener of a [.group-logic-select]. *)
Definition setLogic (groupId : Z) (value : string) (a : app) : app :=
  set_core
    (set_filterGroups
       (updateFirst (hasGroupId groupId)
          (λ g, Group (group_id g) value (conditions g))
          (filterGroups (core a)))
       (core a))
    a.

(** The [change] listener of a [.condition-values] multi-select. *)
Definition setValues (groupId conditionId : Z) (selected : list string) (a : app) : app :=
  set_core
    (set_filterGroups
       (updateFirst (hasGroupId groupId)
          (λ g, set_conditions
                  (updateFirst (hasConditionId conditionId)
                     (λ c, Condition (cond_id c) (field c) (operator c) (value c)
                                     selected (useRegex c) (negate c))
                     (conditions g)) g)
          (filterGroups (core a)))
       (core a))
    a.

(** The ids of the filter configuration are unique and below the counters
    that hand them out. *)
Definition ids_fresh (a : app) : Prop :=
  NoDup (group_id <$> filterGroups (core a))
  ∧ (∀ g, g ∈ filterGroups (core a) → group_id g < nextFilterGroupId a)
  ∧ NoDup (cond_id <$> concat (conditions <$> filterGroups (core a)))
  ∧ (∀ g c, g ∈ filterGroups (core a) → c ∈ conditions g →
            cond_id c < nextFilterConditionId a).




Section Session.
Context `{H : Host}.

(** [function renderFilterGroups()], its effect on [state]: the values of
    the field of every condition are looked up, and so cached. *)
Definition renderFilterGroups (s : state) : state :=
  foldl (λ s group,
           foldl (λ s condition, (getFieldValues (field condition) s).2)
                 s (conditions group))
        s (filterGroups s).

(** The [click] listener of [add-filter-group-btn]. *)
Definition addFilterGroupClick (a : app) : app :=
  let a' := (createFilterGroup a).2 in
  set_core (renderFilterGroups (core a')) a'.

(** The [click] listener of an [.add-condition-btn]. *)
Definition addConditionClick (groupId : Z) (a : app) : app :=
  let a' := (addFilterCondition groupId a).2 in
  set_core (renderFilterGroups (core a')) a'.

(** [function removeFilterCondition(groupId, conditionId)] *)
Definition removeFilterCondition (groupId conditionId : Z) (a : app) : app :=
  match List.find (hasGroupId groupId) (filterGroups (core a)) with
  | None => a
  | Some _ =>
      set_core
        (renderFilterGroups
           (set_filterGroups
              (updateFirst (hasGroupId groupId)
                 (λ g, set_conditions
                         (filter (λ c, cond_id c ≠ conditionId) (conditions g)) g)
                 (filterGroups (core a)))
              (core a)))
        a
  end.

(** [function removeFilterGroup(groupId)] *)
Definition removeFilterGroup (groupId : Z) (a : app) : app :=
  set_core
    (renderFilterGroups
       (set_filterGroups
          (filter (λ g, group_id g ≠ groupId) (filterGroups (core a)))
          (core a)))
    a.

(** [function clearAllFilters()] *)
Definition clearAllFilters (a : app) : app :=
  App (renderFilterGroups (set_filterGroups [] (core a))) 1 1 (pivotConfig a)
      (pivotData a) (filteredRecordsCache a) (currentFilter a) (columnPreferences a).



(** The [change] listener of [file-input], on the session. *)
Definition fileSelected (event : option file) (a : app) : app :=
  set_core (handleFileSelect event (core a)) a.

(** *** Editing the filter configuration

    The events that touch [state.filterGroups] and the two counters. *)
Inductive action : Type :=
  | AddGroup
  | AddCondition (groupId : Z)
  | RemoveCondition (groupId conditionId : Z)
  | RemoveGroup (groupId : Z)
  | ClearAll
  | Edit (element : control)
  | SetLogic (groupId : Z) (value : string)
  | SetValues (groupId conditionId : Z) (selected : list string)
  | SelectFile (event : option file).

Definition step (a : app) (act : action) : app :=
  match act with
  | AddGroup => addFilterGroupClick a
  | AddCondition groupId => addConditionClick groupId a
  | RemoveCondition groupId conditionId => removeFilterCondition groupId conditionId a
  | RemoveGroup groupId => removeFilterGroup groupId a
  | ClearAll => clearAllFilters a
  | Edit element => updateConditionField element a
  | SetLogic groupId value => setLogic groupId value a
  | SetValues groupId conditionId selected => setValues groupId conditionId selected a
  | SelectFile event => fileSelected event a
  end.

Definition run (acts : list action) (a : app) : app := foldl step a acts.

End Session.

(** ** A host to run the engine on

    An executable instance of [Host] for strings of ASCII characters.  Its
    pattern language is the fragment of the browser's that is built from
    literal characters, [.], [^], [$], [|], groups, and the quantifiers [*],
    [+] and [?] (greedy or lazy); a pattern that uses a backslash, a
    character class or a braced quantifier is outside the fragment and is
    rejected by this instance.  The comparator orders digit runs by numeric
    value, letters without regard to case, digits before letters and other
    characters before digits. *)
Module AsciiHost.

Definition lower (c : ascii) : ascii :=
  let n := nat_of_ascii c in
  if decide (65 ≤ n ≤ 90)%nat then ascii_of_nat (n + 32) else c.

Fixpoint toLowerCase (s : string) : string :=
  match s with
  | EmptyString => EmptyString
  | String c s' => String (lower c) (toLowerCase s')
  end.

(** *** Patterns *)

Inductive re : Type :=
  | Eps
  | Chr (c : ascii)
  | Any
  | Bol
  | Eol
  | Seq (r1 r2 : re)
  | Alt (r1 r2 : re)
  | Star (r : re).

(** What a quantifier character may follow. *)
Inductive last_term : Type := NoAtom | Atom | Quantified | Lazy.

(** A disjunction under construction: the alternatives already closed by
    [|] and the terms of the current alternative, both most recent first. *)
Record frame : Type := Frame {
  alts : list re;
  terms : list re;
  last : last_term
}.

Definition close (f : frame) : re :=
  let alt := foldl (λ acc t, Seq t acc) Eps (terms f) in
  foldl (λ acc a, Alt a acc) alt (alts f).

Definition push (t : re) (l : last_term) (f : frame) : frame :=
  Frame (alts f) (t :: terms f) l.

Definition quantify (q : ascii) (f : frame) : completion frame :=
  match last f, terms f with
  | Atom, t :: ts =>
      let t' := if decide (q = "*"%char) then Star t
                else if decide (q = "+"%char) then Seq t (Star t)
                else Alt t Eps in
      Normal (Frame (alts f) (t' :: ts) Quantified)
  | Quantified, _ =>
      if decide (q = "?"%char) then Normal (Frame (alts f) (terms f) Lazy)
      else Throw (SyntaxError "Nothing to repeat")
  | _, _ => Throw (SyntaxError "Nothing to repeat")
  end.

Fixpoint parse (s : string) (cur : frame) (stack : list frame) : completion re :=
  match s with
  | EmptyString =>
      match stack with
      | [] => Normal (close cur)
      | _ :: _ => Throw (SyntaxError "Unterminated group")
      end
  | String c s' =>
      if decide (c = "("%char) then parse s' (Frame [] [] NoAtom) (cur :: stack)
      else if decide (c = ")"%char) then
        match stack with
        | [] => Throw (SyntaxError "Unmatched ')'")
        | parent :: stack' => parse s' (push (close cur) Atom parent) stack'
        end
      else if decide (c = "|"%char) then
        parse s' (Frame (close (Frame [] (terms cur) NoAtom) :: alts cur) [] NoAtom) stack
      else if decide (c = "*"%char ∨ c = "+"%char ∨ c = "?"%char) then
        match quantify c cur with
        | Normal cur' => parse s' cur' stack
        | Throw e => Throw e
        end
      else if decide (c = "["%char ∨ c = "{"%char ∨ c = "\"%char) then
        Throw (SyntaxError "Outside the supported fragment")
      else if decide (c = "."%char) then parse s' (push Any Atom cur) stack
      else if decide (c = "^"%char) then parse s' (push Bol NoAtom cur) stack
      else if decide (c = "$"%char) then parse s' (push Eol NoAtom cur) stack
      else parse s' (push (Chr c) Atom cur) stack
  end.

Definition RegExp_new (pattern : string) : completion re :=
  parse pattern (Frame [] [] NoAtom) [].

(** *** Matching *)

(** Positions reachable from [seen] by repeating [step]. *)
Fixpoint closure (step : nat → list nat) (fuel : nat) (seen : list nat) : list nat :=
  match fuel with
  | O => seen
  | S fuel' => closure step fuel' (list_union seen (flat_map step seen))
  end.

(** The positions at which a match of [r] that starts at [i] may end. *)
Fixpoint ends (r : re) (s : list ascii) (i : nat) : list nat :=
  match r with
  | Eps => [i]
  | Chr c =>
      match s !! i with
      | Some d => if decide (lower d = lower c) then [S i] else []
      | None => []
      end
  | Any =>
      match s !! i with
      | Some d => if decide (d = "010"%char ∨ d = "013"%char) then [] else [S i]
      | None => []
      end
  | Bol => if decide (i = 0%nat) then [i] else []
  | Eol => if decide (i = length s) then [i] else []
  | Seq r1 r2 => remove_dups (flat_map (ends r2 s) (ends r1 s i))
  | Alt r1 r2 => list_union (ends r1 s i) (ends r2 s i)
  | Star r1 => closure (ends r1 s) (S (length s)) [i]
  end.

Definition RegExp_test (r : re) (s : string) : bool :=
  let cs := list_ascii_of_string s in
  existsb (λ i, bool_decide (ends r cs i ≠ [])) (seq 0 (S (length cs))).

(** *** Ordering *)

Inductive token : Type := Num (n : N) | Other (c : ascii).

Definition flush (num : option N) : list token :=
  match num with Some n => [Num n] | None => [] end.

Fixpoint tokens (s : string) (num : option N) : list token :=
  match s with
  | EmptyString => flush num
  | String c s' =>
      match Ascii.is_nat c with
      | Some d => tokens s' (Some (10 * default 0 num + N.of_nat d)%N)
      | None => flush num ++ Other (lower c) :: tokens s' None
      end
  end.

Definition sign (c : comparison) : Z :=
  match c with Lt => -1 | Eq => 0 | Gt => 1 end.

Definition compare_token (a b : token) : comparison :=
  match a, b with
  | Num m, Num n => (m ?= n)%N
  | Num _, Other c => if decide (97 ≤ nat_of_ascii c ≤ 122)%nat then Lt else Gt
  | Other c, Num _ => if decide (97 ≤ nat_of_ascii c ≤ 122)%nat then Gt else Lt
  | Other c, Other d => (N_of_ascii c ?= N_of_ascii d)%N
  end.

Fixpoint compare_tokens (a b : list token) : comparison :=
  match a, b with
  | [], [] => Eq
  | [], _ :: _ => Lt
  | _ :: _, [] => Gt
  | x :: a', y :: b' =>
      match compare_token x y with
      | Eq => compare_tokens a' b'
      | c => c
      end
  end.

Definition localeCompare (a b : string) : Z :=
  sign (compare_tokens (tokens a None) (tokens b None)).

Global Instance host : Host :=
  Build_Host toLowerCase re RegExp_new RegExp_test localeCompare.

End AsciiHost.


(** ** Sample data

    The record and the five-record dataset of the end-to-end scenarios, and
    the session whose single group selects [Category] in [A, B]. *)

Definition gloss : gmap string string := {[ "Gloss" := "run.INCMP" ]}.

Definition category (v : string) : gmap string string := {[ "Category" := v ]}.

Definition five : list (gmap string string) :=
  [category "A"; category "B"; category "A"; category "C"; category "B"].

Definition inAB (ng : bool) : state :=
  State (Some "five.xml") ["Category"] five
    [Group 1 "AND" [Condition 1 "Category" "in-list" "" ["A"; "B"] false ng]] ∅.


(** The session of [inAB false] before and after its pivot by [Category]
    and [Gloss] was generated. *)
Definition sampleApp : app :=
  App (inAB false) 2 2 (None, None) None None None ∅.


(** A session whose cache holds the values of [Category]. *)
Definition cached : app :=
  App (State (Some "five.xml") ["Category"] five [] {[ "Category" := ["A"; "B"; "C"] ]})
      1 1 (None, None) None None None ∅.

(** The preferences of a database with three fields. *)
Definition abc : prefs := initialPrefs ["a"; "b"; "c"].

(** * Properties *)

(** ** Running computations *)

Ltac js_unfold :=
  unfold returns, logged, mbind, mret, JS_bind, JS_ret, lift, log, try_catch in *.

Ltac js_simpl := js_unfold; simpl in *.

Lemma returns_inj {A} (m : JS A) (a b : A) : returns m a → returns m b → a = b.
Proof. unfold returns. congruence. Qed.

Lemma returns_ret {A} (a b : A) : returns (mret a) b ↔ a = b.
Proof. js_simpl. split; congruence. Qed.

Lemma bind_returns {A B} (m : JS A) (f : A → JS B) (a : A) (b : B) :
  returns m a → returns (f a) b → returns (m ≫= f) b.
Proof.
  destruct m as [[a'|e] out]; js_simpl; [|done].
  intros [= ->]. by destruct (f a) as [r out'].
Qed.

(** *** Array callbacks that never throw *)

Section Callbacks.
Context {A : Type} (f : A → JS bool).
Hypothesis f_total : ∀ x, ∃ b, returns (f x) b.

Lemma callback_false x : returns (f x) false → ¬ returns (f x) true.
Proof. unfold returns. congruence. Qed.

Lemma every_returns l :
  returns (every f l) (bool_decide (Forall (λ x, returns (f x) true) l)).
Proof.
  induction l as [|x l IH]; simpl.
  - by apply returns_ret.
  - destruct (f_total x) as [[] Hb]; apply (bind_returns _ _ _ _ Hb).
    + erewrite bool_decide_ext; [exact IH|]. rewrite Forall_cons. tauto.
    + apply returns_ret. symmetry. apply bool_decide_eq_false.
      rewrite Forall_cons. intros [? _]. by eapply callback_false.
Qed.

Lemma some_returns l :
  returns (some f l) (bool_decide (Exists (λ x, returns (f x) true) l)).
Proof.
  induction l as [|x l IH]; simpl.
  - by apply returns_ret.
  - destruct (f_total x) as [[] Hb]; apply (bind_returns _ _ _ _ Hb).
    + apply returns_ret. symmetry. apply bool_decide_eq_true.
      by apply Exists_cons_hd.
    + erewrite bool_decide_ext; [exact IH|]. rewrite Exists_cons.
      pose proof (callback_false x Hb). tauto.
Qed.

Lemma Array_filter_returns l :
  returns (Array_filter f l) (filter (λ x, returns (f x) true) l).
Proof.
  induction l as [|x l IH]; simpl.
  - by apply returns_ret.
  - destruct (f_total x) as [[] Hb]; apply (bind_returns _ _ _ _ Hb);
      apply (bind_returns _ _ _ _ IH); apply returns_ret.
    + by rewrite filter_cons_True.
    + rewrite filter_cons_False; [done|]. by apply callback_false.
Qed.
End Callbacks.

(** *** Buckets of a pivot map *)

Section Buckets.
Implicit Types (m : gmap string (list (gmap string string))).

Lemma bucketTotal_comm (z1 z2 : list (gmap string string)) (y : nat) :
  (length z1 + (length z2 + y) = length z2 + (length z1 + y))%nat.
Proof. lia. Qed.

Lemma bucketTotal_insert m k b :
  (bucketTotal (<[k := b]> m) + length (default [] (m !! k))
   = bucketTotal m + length b)%nat.
Proof.
  unfold bucketTotal. destruct (m !! k) as [b0|] eqn:Hk; simpl.
  - rewrite <-(insert_delete_eq m).
    rewrite map_fold_insert_L;
      [|intros; apply bucketTotal_comm|apply lookup_delete_eq].
    rewrite (map_fold_delete_L _ _ k b0 m);
      [lia|intros; apply bucketTotal_comm|done].
  - rewrite map_fold_insert_L; [lia|intros; apply bucketTotal_comm|done].
Qed.

(** The two writes of one loop iteration amount to one insertion. *)
Lemma push_insert m k (record : gmap string string) :
  let m1 := match m !! k with None => <[k := []]> m | Some _ => m end in
  <[k := default [] (m1 !! k) ++ [record]]> m1
  = <[k := default [] (m !! k) ++ [record]]> m.
Proof.
  destruct (m !! k) eqn:Hk; simpl.
  - by rewrite Hk.
  - by rewrite lookup_insert_eq, insert_insert_eq.
Qed.

(** A key determines the pair of values it was built from when the row
    values are free of the separator's character. *)
Lemma pivotKey_inj (rv cv rv' cv' : string) :
  "|"%char ∉ list_ascii_of_string rv →
  "|"%char ∉ list_ascii_of_string rv' →
  pivotKey rv cv = pivotKey rv' cv' → rv = rv' ∧ cv = cv'.
Proof.
  unfold pivotKey. revert rv'.
  induction rv as [|a rv IH]; intros [|a' rv'] Hrv Hrv' Hkey.
  - split; [done|]. by injection Hkey.
  - exfalso. apply Hrv'. injection Hkey as <- _. apply list_elem_of_here.
  - exfalso. apply Hrv. injection Hkey as -> _. apply list_elem_of_here.
  - injection Hkey as -> Hkey. simpl in Hrv, Hrv'.
    rewrite not_elem_of_cons in Hrv, Hrv'.
    destruct (IH rv') as [-> ->]; [tauto|tauto|done|done].
Qed.
End Buckets.

Section EngineFacts.
Context `{H : Host}.

Implicit Types (record : gmap string string) (c : condition) (g : group).

(** *** The condition evaluator never throws *)

Lemma regex_switch_try op testValue fieldValue regex :
  ∃ b out,
    try_catch (regex_switch op testValue fieldValue regex)
      (λ error, log "Filter evaluation error:" error;; mret false)
    = (Normal b, out).
Proof.
  unfold regex_switch. repeat case_decide; js_simpl; eauto.
  - destruct (RegExp_new _); simpl; eauto.
  - destruct (RegExp_new _); simpl; eauto.
Qed.

Lemma conditionResult_total record c :
  ∃ b out, conditionResult record c = (Normal b, out).
Proof.
  unfold conditionResult. repeat case_decide; try (js_simpl; eauto; fail).
  destruct (useRegex c); [|js_simpl; eauto].
  destruct (RegExp_new (value c)) as [regex|e] eqn:E.
  - change (lift (Normal regex) ≫= _) with
      (let '(r, out') := regex_switch (operator c) (value c)
                           (or_else (record !! field c) "") regex
       in (r, [] ++ out')).
    destruct (regex_switch_try (operator c) (value c)
                (or_else (record !! field c) "") regex) as (b & out & Hb).
    destruct (regex_switch _ _ _ _) as [[b'|e'] out']; simpl in *; eauto.
  - js_simpl. eauto.
Qed.

Lemma evaluateCondition_unfold record c b out :
  conditionResult record c = (Normal b, out) →
  evaluateCondition record c
  = (Normal (if negate c then negb b else b), out).
Proof.
  intros Hc. unfold evaluateCondition. rewrite Hc. js_simpl.
  by rewrite app_nil_r.
Qed.

Lemma evaluateCondition_total record c :
  ∃ b, returns (evaluateCondition record c) b.
Proof.
  destruct (conditionResult_total record c) as (b & out & Hb).
  eexists. by rewrite (evaluateCondition_unfold _ _ _ _ Hb).
Qed.

(** *** Empty test value *)

Lemma conditionResult_empty_value record c :
  value c = "" → operator c ≠ "empty" → operator c ≠ "not-empty" →
  operator c ≠ "in-list" →
  conditionResult record c = mret true.
Proof.
  intros Hv He Hn Hl. unfold conditionResult.
  rewrite decide_False by done. by rewrite decide_True.
Qed.

(** C2 (amended). For a condition whose value is the empty string and whose
    operator is none of empty, not-empty and in-list, the raw result is
    true for every record and either setting of useRegex; negation is then
    applied, so evaluateCondition returns true when negate is false and
    false when negate is true.  Nothing is logged. *)
Theorem evaluateCondition_empty_value record c :
  value c = "" → operator c ≠ "empty" → operator c ≠ "not-empty" →
  operator c ≠ "in-list" →
  evaluateCondition record c = mret (negb (negate c)).
Proof.
  intros Hv He Hn Hl.
  rewrite (evaluateCondition_unfold record c true []).
  - by destruct (negate c).
  - by apply conditionResult_empty_value.
Qed.

(** *** Malformed patterns *)

Lemma conditionResult_malformed record c e :
  operator c ≠ "in-list" → useRegex c = true → value c ≠ "" →
  RegExp_new (value c) = Throw e →
  conditionResult record c
  = (Normal false, [console_error "Filter evaluation error:" e]).
Proof.
  intros Hl Hr Hv He. unfold conditionResult.
  rewrite decide_False by done.
  rewrite decide_False by (intros (? & _); done).
  rewrite Hr, He. reflexivity.
Qed.

(** C3 (amended). For a condition with an operator other than in-list,
    useRegex set and a non-empty value that the RegExp constructor rejects,
    evaluateCondition does not throw: the error is caught, written once to
    the console, and the raw result is false; evaluateCondition returns
    false when negate is false and true when negate is true. *)
Theorem evaluateCondition_malformed record c e :
  operator c ≠ "in-list" → useRegex c = true → value c ≠ "" →
  RegExp_new (value c) = Throw e →
  evaluateCondition record c
  = (Normal (negate c), [console_error "Filter evaluation error:" e]).
Proof.
  intros Hl Hr Hv He.
  rewrite (evaluateCondition_unfold record c false
             [console_error "Filter evaluation error:" e]).
  - by destruct (negate c).
  - by apply conditionResult_malformed.
Qed.

(** *** The in-list operator *)



(** *** Negation *)

Lemma conditionResult_toggleNegate record c :
  conditionResult record (toggleNegate c) = conditionResult record c.
Proof. reflexivity. Qed.

(** C9. For every record and every condition, whatever its operator and
    regex mode, evaluateCondition returns a boolean, and on the condition
    with negate flipped it returns the negation of that boolean. *)
Theorem evaluateCondition_toggleNegate record c :
  ∃ b, returns (evaluateCondition record c) b
       ∧ returns (evaluateCondition record (toggleNegate c)) (negb b).
Proof.
  destruct (conditionResult_total record c) as (b & out & Hb).
  exists (if negate c then negb b else b). split.
  - by rewrite (evaluateCondition_unfold _ _ _ _ Hb).
  - rewrite (evaluateCondition_unfold _ (toggleNegate c) b out)
      by (by rewrite conditionResult_toggleNegate).
    unfold returns. simpl. by destruct (negate c), b.
Qed.

(** *** Operators outside the list *)

Lemma regex_switch_unrecognized op testValue fieldValue regex :
  op ∉ recognized → regex_switch op testValue fieldValue regex = mret true.
Proof.
  unfold recognized. rewrite !not_elem_of_cons.
  intros (? & ? & ? & ? & ? & ? & ? & ? & ? & _).
  unfold regex_switch. repeat case_decide; tauto.
Qed.

Lemma plain_switch_unrecognized op testValue fieldValue :
  op ∉ recognized → plain_switch op testValue fieldValue = true.
Proof.
  unfold recognized. rewrite !not_elem_of_cons.
  intros (? & ? & ? & ? & ? & ? & ? & ? & ? & _).
  unfold plain_switch. repeat case_decide; tauto.
Qed.

(** C10 (amended). For a condition whose operator is none of the nine
    recognized ones and whose value is non-empty, no error reaches the
    caller and the raw result is true, except when useRegex is set and the
    RegExp constructor rejects the value: the pattern is compiled before
    the operator is dispatched, so the raw result is then false and the
    error is logged.  evaluateCondition applies negation to that result. *)
Theorem conditionResult_unrecognized record c :
  operator c ∉ recognized → value c ≠ "" →
  conditionResult record c
  = (if useRegex c then
       match RegExp_new (value c) with
       | Normal _ => mret true
       | Throw e => (Normal false, [console_error "Filter evaluation error:" e])
       end
     else mret true)
  ∧ ∃ b out, conditionResult record c = (Normal b, out)
      ∧ evaluateCondition record c
        = (Normal (if negate c then negb b else b), out).
Proof.
  intros Hop Hv. split.
  - assert (operator c ≠ "in-list") as Hl.
    { intros Heq. apply Hop. rewrite Heq. unfold recognized. set_solver. }
    unfold conditionResult. rewrite decide_False by done.
    rewrite decide_False by (intros (? & _); done).
    destruct (useRegex c).
    + destruct (RegExp_new (value c)) as [regex|e]; [|done].
      change (lift (Normal regex) ≫= _) with
        (let '(r, out') := regex_switch (operator c) (value c)
                             (or_else (record !! field c) "") regex
         in (r, [] ++ out')).
      by rewrite regex_switch_unrecognized.
    + by rewrite plain_switch_unrecognized.
  - destruct (conditionResult_total record c) as (b & out & Hb).
    exists b, out. split; [done|]. by apply evaluateCondition_unfold.
Qed.

(** *** Filter groups *)

Lemma evaluateFilterGroup_returns record g :
  returns (evaluateFilterGroup record g)
    (match conditions g with
     | [] => true
     | _ :: _ =>
         if decide (logic g = "AND")
         then bool_decide (Forall (λ c, returns (evaluateCondition record c) true)
                             (conditions g))
         else bool_decide (Exists (λ c, returns (evaluateCondition record c) true)
                             (conditions g))
     end).
Proof.
  unfold evaluateFilterGroup. destruct (conditions g) as [|c cs] eqn:Hcs.
  - by apply returns_ret.
  - rewrite decide_False by done. case_decide.
    + apply every_returns, evaluateCondition_total.
    + apply some_returns, evaluateCondition_total.
Qed.

Lemma evaluateFilterGroup_total record g :
  ∃ b, returns (evaluateFilterGroup record g) b.
Proof. eexists. apply evaluateFilterGroup_returns. Qed.


(** *** Applying the filter configuration *)

Lemma matchesSome_total (groups : list group) record :
  ∃ b, returns (some (λ g, evaluateFilterGroup record g) groups) b.
Proof. eexists. apply some_returns, evaluateFilterGroup_total. Qed.

(** C6. With no filter groups applyFilters returns the record list itself,
    and logs nothing.  With at least one group it returns exactly the
    records that satisfy at least one group, in their original order: the
    result is the input with the other records removed, hence a
    subsequence of it. *)
Theorem applyFilters_spec (st : state) (recs : list (gmap string string)) :
  (filterGroups st = [] → applyFilters st recs = mret recs)
  ∧ (filterGroups st ≠ [] →
     returns (applyFilters st recs)
       (filter (λ record,
                  Exists (λ g, returns (evaluateFilterGroup record g) true)
                    (filterGroups st))
          recs))
  ∧ (∃ out, returns (applyFilters st recs) out ∧ out `sublist_of` recs).
Proof.
  assert (Hne : filterGroups st ≠ [] →
     returns (applyFilters st recs)
       (filter (λ record,
                  Exists (λ g, returns (evaluateFilterGroup record g) true)
                    (filterGroups st))
          recs)).
  { intros Hg. unfold applyFilters.
    rewrite decide_False by (by destruct (filterGroups st)).
    pose proof (Array_filter_returns
      (λ record, some (λ g, evaluateFilterGroup record g) (filterGroups st))
      (matchesSome_total (filterGroups st)) recs) as Hf.
    erewrite list_filter_iff; [exact Hf|].
    intros record. split.
    - intros Hex. pose proof (some_returns _ (evaluateFilterGroup_total record)
        (filterGroups st)) as Hs.
      by rewrite bool_decide_eq_true_2 in Hs.
    - intros Ht. eapply bool_decide_eq_true, returns_inj; [|exact Ht].
      apply some_returns, evaluateFilterGroup_total. }
  split_and!; [|done|].
  - intros Hg. unfold applyFilters. by rewrite Hg.
  - destruct (filterGroups st) as [|g gs] eqn:Hg.
    + exists recs. split; [|done]. unfold applyFilters. by rewrite Hg.
    + eexists. split; [by apply Hne|]. apply sublist_filter.
Qed.

(** *** The pivot aggregator *)

Lemma pivotStep_map rf cf m rows cols record :
  (pivotStep rf cf (m, rows, cols) record).1.1
  = <[recordKey rf cf record :=
        default [] (m !! recordKey rf cf record) ++ [record]]> m.
Proof. unfold pivotStep, recordKey. simpl. apply push_insert. Qed.

Lemma generatePivotTable_map recs rf cf :
  pivotMap (generatePivotTable recs rf cf)
  = (foldl (pivotStep rf cf) (∅, [], []) recs).1.1.
Proof.
  unfold generatePivotTable.
  by destruct (foldl _ _ recs) as [[m rows] cols].
Qed.

Lemma pivot_fold_invariant recs rf cf :
  let m := (foldl (pivotStep rf cf) (∅, [], []) recs).1.1 in
  (∀ k, default [] (m !! k) = filter (λ r, recordKey rf cf r = k) recs)
  ∧ (∀ k b, m !! k = Some b → b ≠ [])
  ∧ bucketTotal m = length recs.
Proof.
  induction recs as [|record recs IH] using rev_ind; simpl.
  - split_and!; [by intros; rewrite lookup_empty
                |by intros ??; rewrite lookup_empty|done].
  - rewrite foldl_snoc.
    destruct (foldl (pivotStep rf cf) (∅, [], []) recs) as [[m rows] cols].
    simpl in IH. destruct IH as (Hb & Hne & Hsum).
    rewrite pivotStep_map. split_and!.
    + intros k. rewrite filter_app, <-Hb.
      destruct (decide (recordKey rf cf record = k)) as [<-|Hk].
      * rewrite lookup_insert_eq, filter_cons_True by done. done.
      * rewrite lookup_insert_ne, filter_cons_False by done.
        by rewrite app_nil_r.
    + intros k b.
      destruct (decide (recordKey rf cf record = k)) as [<-|Hk].
      * rewrite lookup_insert_eq. intros [= <-]. by intros [_ ?]%app_eq_nil.
      * rewrite lookup_insert_ne by done. apply Hne.
    + pose proof (bucketTotal_insert m (recordKey rf cf record)
        (default [] (m !! recordKey rf cf record) ++ [record])) as Hi.
      rewrite length_app in *. simpl in *. lia.
Qed.

Lemma bucket_generatePivotTable recs rf cf k :
  bucket (generatePivotTable recs rf cf) k
  = filter (λ r, recordKey rf cf r = k) recs.
Proof.
  unfold bucket. rewrite generatePivotTable_map.
  apply (pivot_fold_invariant recs rf cf).
Qed.


(** *** Totality *)



(** *** The field value cache *)

Lemma getFieldValues_hit f st cached :
  fieldValuesCache st !! f = Some cached → getFieldValues f st = (cached, st).
Proof. intros Hc. unfold getFieldValues. by rewrite Hc. Qed.

Lemma getFieldValues_caches f st :
  fieldValuesCache (getFieldValues f st).2 !! f = Some (getFieldValues f st).1.
Proof.
  unfold getFieldValues. destruct (fieldValuesCache st !! f) eqn:Hc; simpl.
  - done.
  - apply lookup_insert_eq.
Qed.

Lemma handleFileSelect_cache event st :
  fieldValuesCache (handleFileSelect event st) = fieldValuesCache st.
Proof.
  unfold handleFileSelect. destruct event as [fl|]; [|done].
  destruct (parsed fl) as [[recs flds]|]; [|done]. by case_decide.
Qed.

(** Once a field has been queried, no later load changes the answer. *)
Lemma getFieldValues_after_load f event st :
  (getFieldValues f (handleFileSelect event (getFieldValues f st).2)).1
  = (getFieldValues f st).1.
Proof.
  erewrite getFieldValues_hit; [done|].
  rewrite handleFileSelect_cache. apply getFieldValues_caches.
Qed.

(** C1 (the code at the failing input). From the initial state a dataset
    whose records carry [F = "a"] is loaded and [getFieldValues "F"] is
    called; a dataset whose records carry [F = "b"] is then loaded through
    handleFileSelect, which replaces the records and the fields but leaves
    the cache alone; the second call of [getFieldValues "F"] answers ["a"]
    from the cache, whereas the new records give ["b"]. *)
Theorem getFieldValues_stale :
  let old := File "old.xml" (Normal ([ {[ "F" := "a" ]} ], ["F"])) in
  let new := File "new.xml" (Normal ([ {[ "F" := "b" ]} ], ["F"])) in
  let st0 := handleFileSelect (Some old) initial in
  let st1 := (getFieldValues "F" st0).2 in
  let st2 := handleFileSelect (Some new) st1 in
  (getFieldValues "F" st0).1 = ["a"]
  ∧ records st2 = [ {[ "F" := "b" ]} ]
  ∧ fields st2 = ["F"]
  ∧ (getFieldValues "F" st2).1 = ["a"]
  ∧ fieldValuesOf (records st2) "F" = ["b"].
Proof.
  intros old new st0 st1 st2.
  assert (Hfirst : (getFieldValues "F" st0).1 = ["a"]) by reflexivity.
  split_and!.
  - done.
  - reflexivity.
  - reflexivity.
  - unfold st2, st1. by rewrite getFieldValues_after_load.
  - reflexivity.
Qed.

End EngineFacts.

(** * Scenarios

    The engine run on [AsciiHost]. *)

Section Scenarios.
Existing Instance AsciiHost.host.

Example contains_run :
  evaluateCondition gloss (Condition 1 "Gloss" "contains" "run" [] false false)
  = mret true
  ∧ evaluateCondition gloss (Condition 1 "Gloss" "contains" "run" [] false true)
    = mret false.
Proof. split; reflexivity. Qed.

Example in_list_retains_four :
  applyFilters (inAB false) five
  = mret [category "A"; category "B"; category "A"; category "B"]
  ∧ applyFilters (inAB true) five = mret [category "C"].
Proof. split; vm_compute; reflexivity. Qed.

Example natural_order :
  sort naturalSort ["item2"; "item10"; "item1"] = ["item1"; "item2"; "item10"].
Proof. reflexivity. Qed.

Example unclosed_is_malformed :
  RegExp_new "(unclosed" = Throw (SyntaxError "Unterminated group").
Proof. reflexivity. Qed.

(** The key of a pivot bucket does not determine the pair of values: a cell
    of the rendered table reads its bucket through the key alone. *)
Example pivotKey_not_injective :
  pivotKey "a|||b" "c" = pivotKey "a" "b|||c".
Proof. reflexivity. Qed.

(** ** C2 *)

Lemma evaluateCondition_empty_value_witness :
  let c := Condition 1 "Gloss" "contains" "" [] true false in
  value c = "" ∧ evaluateCondition gloss c = mret true.
Proof.
  split; [reflexivity|].
  apply (evaluateCondition_empty_value gloss
           (Condition 1 "Gloss" "contains" "" [] true false));
    [reflexivity|discriminate..].
Defined.

(** C2 as stated fails: with negate set, an unconfigured condition
    evaluates to false. *)
Lemma evaluateCondition_empty_value_negate :
  ¬ (∀ (H : Host) (record : gmap string string) (c : condition),
       value c = "" → operator c ≠ "empty" → operator c ≠ "not-empty" →
       operator c ≠ "in-list" →
       returns (evaluateCondition record c) true).
Proof.
  intros Hclaim.
  specialize (Hclaim AsciiHost.host gloss
                (Condition 1 "Gloss" "equals" "" [] false true)).
  discriminate Hclaim; done.
Qed.

(** ** C3 *)

Lemma evaluateCondition_malformed_witness :
  let c := Condition 1 "Gloss" "contains" "(unclosed" [] true false in
  RegExp_new (value c) = Throw (SyntaxError "Unterminated group")
  ∧ evaluateCondition gloss c
    = (Normal false,
       [console_error "Filter evaluation error:" (SyntaxError "Unterminated group")]).
Proof.
  split; [reflexivity|].
  apply (evaluateCondition_malformed gloss
           (Condition 1 "Gloss" "contains" "(unclosed" [] true false));
    [discriminate|reflexivity|discriminate|reflexivity].
Defined.

(** C3 as stated fails: with negate set the caught error makes the
    condition true, and an in-list condition never compiles its value. *)
Lemma evaluateCondition_malformed_not_false :
  let c1 := Condition 1 "Gloss" "equals" "(unclosed" [] true true in
  let c2 := Condition 2 "Gloss" "in-list" "(unclosed" [] true false in
  RegExp_new "(unclosed" = Throw (SyntaxError "Unterminated group")
  ∧ useRegex c1 = true ∧ useRegex c2 = true
  ∧ ¬ returns (evaluateCondition gloss c1) false
  ∧ ¬ returns (evaluateCondition gloss c2) false.
Proof. split_and!; [reflexivity..|discriminate|discriminate]. Qed.

(** ** C10 *)

Lemma conditionResult_unrecognized_witness :
  let c := Condition 1 "Gloss" "matches" "run" [] false true in
  (operator c ∉ recognized)
  ∧ conditionResult gloss c = mret true
  ∧ ∃ b out, conditionResult gloss c = (Normal b, out)
      ∧ evaluateCondition gloss c
        = (Normal (if negate c then negb b else b), out).
Proof.
  assert (Hop : "matches" ∉ recognized).
  { unfold recognized. rewrite !not_elem_of_cons.
    split_and!; [discriminate..|apply not_elem_of_nil]. }
  split; [exact Hop|].
  apply (conditionResult_unrecognized gloss
           (Condition 1 "Gloss" "matches" "run" [] false true));
    [exact Hop|discriminate].
Defined.

(** C10 as stated fails: in regex mode the value is compiled before the
    operator is looked at, so a malformed value gives the raw result
    false. *)
Lemma conditionResult_unrecognized_malformed :
  ¬ (∀ (H : Host) (record : gmap string string) (c : condition),
       operator c ∉ recognized → value c ≠ "" →
       returns (conditionResult record c) true).
Proof.
  intros Hclaim.
  specialize (Hclaim AsciiHost.host gloss
                (Condition 1 "Gloss" "matches" "(unclosed" [] true false)).
  discriminate Hclaim; [|done].
  unfold recognized. rewrite !not_elem_of_cons.
  split_and!; [discriminate..|apply not_elem_of_nil].
Qed.

(** ** C7 *)


(** ** C6 *)

Lemma applyFilters_spec_witness :
  filterGroups (inAB false) ≠ []
  ∧ returns (applyFilters (inAB false) five)
      (filter (λ record,
                 Exists (λ g, returns (evaluateFilterGroup record g) true)
                   (filterGroups (inAB false)))
         five).
Proof.
  split; [discriminate|].
  apply (applyFilters_spec (inAB false) five). discriminate.
Defined.

(** ** C4 *)


(** ** C8 *)


End Scenarios.

(** * Beyond the engine's contracts *)

(** ** Sets and sorting *)

Lemma Set_add_elem (x y : string) (s : list string) :
  y ∈ Set_add x s ↔ y = x ∨ y ∈ s.
Proof.
  induction s as [|z s IH]; simpl.
  - rewrite elem_of_cons. tauto.
  - case_decide as Hz; rewrite !elem_of_cons; [|rewrite IH]; [|tauto].
    split; [tauto|]. intros [->|?]; [subst; tauto|tauto].
Qed.

Lemma Set_add_NoDup (x : string) (s : list string) :
  NoDup s → NoDup (Set_add x s).
Proof.
  induction 1 as [|z s Hz Hs IH]; simpl.
  - apply NoDup_singleton.
  - case_decide as Hx; constructor; try done.
    rewrite Set_add_elem. intros [->|?]; done.
Qed.

Section Collect.
Context {A : Type} (g : A → option string) (collect : list string → A → list string).

(** A loop body that adds to a set what [g] yields for the element. *)
Hypothesis collect_spec : ∀ s x,
  collect s x = match g x with Some v => Set_add v s | None => s end.

Lemma collect_elem (l : list A) (s : list string) (v : string) :
  v ∈ foldl collect s l ↔ v ∈ s ∨ ∃ x, x ∈ l ∧ g x = Some v.
Proof.
  revert s. induction l as [|x l IH]; intros s; simpl.
  - split; [tauto|]. intros [?|(x & Hx & _)]; [done|]. by apply elem_of_nil in Hx.
  - rewrite IH, collect_spec. split.
    + intros [Hv|(y & Hy & Hg)].
      * destruct (g x) as [w|] eqn:Hw; [|tauto].
        apply Set_add_elem in Hv as [->|?]; [|tauto].
        right. exists x. split; [apply list_elem_of_here|done].
      * right. exists y. split; [by apply list_elem_of_further|done].
    + intros [Hv|(y & Hy & Hg)].
      * left. destruct (g x); [|done]. apply Set_add_elem. tauto.
      * apply elem_of_cons in Hy as [->|Hy].
        -- left. rewrite Hg. apply Set_add_elem. tauto.
        -- right. eauto.
Qed.

Lemma collect_NoDup (l : list A) (s : list string) :
  NoDup s → NoDup (foldl collect s l).
Proof.
  revert s. induction l as [|x l IH]; intros s Hs; simpl; [done|].
  apply IH. rewrite collect_spec. destruct (g x); [by apply Set_add_NoDup|done].
Qed.
End Collect.

Section SortFacts.
Context {A : Type} (cmp : A → A → Z).

Lemma sort_insert_perm (x : A) (l : list A) : sort_insert cmp x l ≡ₚ x :: l.
Proof.
  induction l as [|y l IH]; simpl; [done|].
  case_decide; [done|]. rewrite IH. apply Permutation_swap.
Qed.

Lemma sort_perm (l : list A) : sort cmp l ≡ₚ l.
Proof.
  induction l as [|x l IH]; simpl; [done|].
  by rewrite sort_insert_perm, IH.
Qed.

Lemma sort_elem (l : list A) (x : A) : x ∈ sort cmp l ↔ x ∈ l.
Proof. by rewrite sort_perm. Qed.

Lemma sort_NoDup (l : list A) : NoDup (sort cmp l) ↔ NoDup l.
Proof. by rewrite sort_perm. Qed.

Hypothesis cmp_total : ∀ a b, cmp a b ≤ 0 ∨ cmp b a ≤ 0.

Lemma sort_insert_sorted (x : A) (l : list A) :
  Sorted (λ a b, cmp a b ≤ 0) l → Sorted (λ a b, cmp a b ≤ 0) (sort_insert cmp x l).
Proof.
  induction 1 as [|y l Hl IH Hy]; simpl.
  - by repeat constructor.
  - case_decide as Hxy.
    + by repeat constructor.
    + constructor; [done|].
      destruct Hy as [|z l Hyz]; simpl.
      * constructor. destruct (cmp_total x y); [done|lia].
      * case_decide; constructor; [|done].
        destruct (cmp_total x y); [done|lia].
Qed.

Lemma sort_sorted (l : list A) : Sorted (λ a b, cmp a b ≤ 0) (sort cmp l).
Proof.
  induction l as [|x l IH]; simpl; [constructor|].
  by apply sort_insert_sorted.
Qed.
End SortFacts.




(** ** Extracting the dataset *)








Section AxisFacts.
Context `{H : Host}.

(** ** The axes of a pivot *)

Lemma pivot_fold_axes rf cf recs m rows cols :
  (foldl (pivotStep rf cf) (m, rows, cols) recs).1.2
  = foldl (λ s r, Set_add (or_else (r !! rf) "(empty)") s) rows recs
  ∧ (foldl (pivotStep rf cf) (m, rows, cols) recs).2
    = foldl (λ s r, Set_add (or_else (r !! cf) "(empty)") s) cols recs.
Proof.
  revert m rows cols. induction recs as [|r recs IH]; intros m rows cols; [done|].
  simpl. apply IH.
Qed.

Lemma generatePivotTable_rowValues recs rf cf :
  rowValues (generatePivotTable recs rf cf)
  = sort naturalSort
      (foldl (λ s r, Set_add (or_else (r !! rf) "(empty)") s) [] recs).
Proof.
  unfold generatePivotTable.
  destruct (pivot_fold_axes rf cf recs ∅ [] []) as [Hr _].
  destruct (foldl _ _ recs) as [[m rows] cols]. simpl in *. by rewrite Hr.
Qed.

Lemma generatePivotTable_colValues recs rf cf :
  colValues (generatePivotTable recs rf cf)
  = sort naturalSort
      (foldl (λ s r, Set_add (or_else (r !! cf) "(empty)") s) [] recs).
Proof.
  unfold generatePivotTable.
  destruct (pivot_fold_axes rf cf recs ∅ [] []) as [_ Hc].
  destruct (foldl _ _ recs) as [[m rows] cols]. simpl in *. by rewrite Hc.
Qed.

Lemma axis_elem (f : string) (recs : list (gmap string string)) (v : string) :
  v ∈ foldl (λ s r, Set_add (or_else (r !! f) "(empty)") s) [] recs
  ↔ ∃ r, r ∈ recs ∧ or_else (r !! f) "(empty)" = v.
Proof.
  rewrite (collect_elem (λ r, Some (or_else (r !! f) "(empty)"))) by done.
  split.
  - intros [?%elem_of_nil|(r & Hr & [= Hv])]; [done|eauto].
  - intros (r & Hr & <-). right. eauto.
Qed.

Lemma axis_NoDup (f : string) (recs : list (gmap string string)) :
  NoDup (foldl (λ s r, Set_add (or_else (r !! f) "(empty)") s) [] recs).
Proof.
  apply (collect_NoDup (λ r, Some (or_else (r !! f) "(empty)"))); [done|constructor].
Qed.

(** X2. The row and column headers of a pivot are exactly the distinct row
    and column values of the records it was built from, each listed once,
    with "(empty)" standing for an absent or blank field. *)
Theorem generatePivotTable_axes recs rf cf :
  let p := generatePivotTable recs rf cf in
  NoDup (rowValues p)
  ∧ NoDup (colValues p)
  ∧ (∀ v, v ∈ rowValues p ↔ ∃ r, r ∈ recs ∧ or_else (r !! rf) "(empty)" = v)
  ∧ (∀ v, v ∈ colValues p ↔ ∃ r, r ∈ recs ∧ or_else (r !! cf) "(empty)" = v).
Proof.
  intros p. unfold p.
  rewrite generatePivotTable_rowValues, generatePivotTable_colValues.
  split_and!.
  - apply sort_NoDup, axis_NoDup.
  - apply sort_NoDup, axis_NoDup.
  - intros v. by rewrite sort_elem, axis_elem.
  - intros v. by rewrite sort_elem, axis_elem.
Qed.

(** X3. When the host's comparison is total, the headers of a pivot and the
    values computed for a field are in natural order: no element is followed
    by one that compares smaller. *)
Theorem naturalSort_sorted recs rf cf f :
  (∀ a b, localeCompare a b ≤ 0 ∨ localeCompare b a ≤ 0) →
  Sorted (λ a b, naturalSort a b ≤ 0) (rowValues (generatePivotTable recs rf cf))
  ∧ Sorted (λ a b, naturalSort a b ≤ 0) (colValues (generatePivotTable recs rf cf))
  ∧ Sorted (λ a b, naturalSort a b ≤ 0) (fieldValuesOf recs f).
Proof.
  intros Htotal.
  rewrite generatePivotTable_rowValues, generatePivotTable_colValues.
  unfold fieldValuesOf. split_and!; by apply sort_sorted.
Qed.

(** ** The field value index *)




(** X5. Asking for the values of a field a second time gives the same list
    and changes nothing; the first call touches no member of the state but
    the cache entry of that field. *)
Theorem getFieldValues_again f st :
  let st' := (getFieldValues f st).2 in
  getFieldValues f st' = ((getFieldValues f st).1, st')
  ∧ (∀ g, g ≠ f → fieldValuesCache st' !! g = fieldValuesCache st !! g)
  ∧ records st' = records st
  ∧ fields st' = fields st
  ∧ filterGroups st' = filterGroups st
  ∧ database st' = database st.
Proof.
  intros st'. split.
  - apply getFieldValues_hit, getFieldValues_caches.
  - unfold st', getFieldValues.
    destruct (fieldValuesCache st !! f); simpl; [done|].
    split_and!; try done. intros g Hg. by rewrite lookup_insert_ne.
Qed.

End AxisFacts.

(** ** The rendered table and the drill-down *)

Section Counting.
Context {A : Type}.

Lemma sum_list_with_add (f g : A → nat) (l : list A) :
  sum_list_with (λ x, f x + g x)%nat l
  = (sum_list_with f l + sum_list_with g l)%nat.
Proof. induction l as [|x l IH]; simpl; lia. Qed.

Lemma sum_list_with_ext_in (f g : A → nat) (l : list A) :
  (∀ x, x ∈ l → f x = g x) → sum_list_with f l = sum_list_with g l.
Proof.
  induction l as [|x l IH]; intros Hfg; simpl; [done|].
  rewrite (Hfg x) by apply list_elem_of_here.
  rewrite IH; [done|]. intros y Hy. by apply Hfg, list_elem_of_further.
Qed.

Lemma sum_list_with_zero (l : list A) : sum_list_with (λ _, 0%nat) l = 0%nat.
Proof. induction l as [|x l IH]; simpl; lia. Qed.

Context `{EqDecision A}.

Lemma indicator_absent (x : A) (l : list A) :
  x ∉ l → sum_list_with (λ y, if decide (x = y) then 1 else 0)%nat l = 0%nat.
Proof.
  induction l as [|y l IH]; simpl; [done|].
  rewrite not_elem_of_cons. intros [Hxy Hx]. rewrite decide_False by done.
  by rewrite IH.
Qed.

Lemma indicator_once (x : A) (l : list A) :
  NoDup l → x ∈ l →
  sum_list_with (λ y, if decide (x = y) then 1 else 0)%nat l = 1%nat.
Proof.
  induction 1 as [|y l Hy Hl IH]; simpl; [by intros ?%elem_of_nil|].
  intros [->|Hx]%elem_of_cons.
  - rewrite decide_True by done. by rewrite indicator_absent.
  - rewrite decide_False by (by intros ->). by rewrite IH.
Qed.

Lemma length_filter_cons (P : A → Prop) `{!∀ x, Decision (P x)} (x : A) (l : list A) :
  length (filter P (x :: l))
  = ((if decide (P x) then 1 else 0) + length (filter P l))%nat.
Proof. rewrite filter_cons. by case_decide. Qed.
End Counting.

Section TableFacts.
Context `{H : Host}.

Lemma row_sum (p : pivot) (rv : string) (cols : list string) :
  sum_list (cellCount <$>
    map (λ colVal,
           if decide (0 < length (bucket p (pivotKey rv colVal)))%nat
           then cell_btn rv colVal (length (bucket p (pivotKey rv colVal)))
           else empty_cell) cols)
  = sum_list_with (λ cv, length (bucket p (pivotKey rv cv))) cols.
Proof.
  induction cols as [|cv cols IH]; csimpl; [done|].
  rewrite IH. case_decide; simpl; lia.
Qed.

Lemma pivotCells_sum (p : pivot) :
  sum_list (cellCount <$> concat (pivotCells p))
  = sum_list_with
      (λ rv, sum_list_with (λ cv, length (bucket p (pivotKey rv cv))) (colValues p))
      (rowValues p).
Proof.
  unfold pivotCells.
  induction (rowValues p) as [|rv rows IH]; csimpl; [done|].
  by rewrite fmap_app, sum_list_with_app, IH, row_sum.
Qed.

(** The cells of a table over any headers that cover the records. *)
Lemma cells_cover (rf cf : string) (rows cols : list string)
    (recs : list (gmap string string)) :
  (∀ r, r ∈ recs → or_else (r !! rf) "(empty)" ∈ rows
                   ∧ or_else (r !! cf) "(empty)" ∈ cols) →
  (length recs
   ≤ sum_list_with
       (λ rv, sum_list_with
                (λ cv, length (filter (λ r, recordKey rf cf r = pivotKey rv cv) recs))
                cols)
       rows)%nat.
Proof.
  induction recs as [|r recs IH]; intros Hcover; simpl; [lia|].
  erewrite sum_list_with_ext_in; last first.
  { intros rv _. apply sum_list_with_ext_in. intros cv _.
    apply length_filter_cons. }
  erewrite sum_list_with_ext_in; last first.
  { intros rv _. apply sum_list_with_add. }
  rewrite sum_list_with_add.
  assert (Hrecs : ∀ r', r' ∈ recs →
    or_else (r' !! rf) "(empty)" ∈ rows ∧ or_else (r' !! cf) "(empty)" ∈ cols).
  { intros r' Hr'. by apply Hcover, list_elem_of_further. }
  specialize (IH Hrecs).
  destruct (Hcover r (list_elem_of_here _ _)) as [Hrow Hcol].
  pose proof (sum_list_with_in _
    (λ rv, sum_list_with
             (λ cv, if decide (recordKey rf cf r = pivotKey rv cv) then 1 else 0)%nat
             cols) rows Hrow) as Hrv.
  pose proof (sum_list_with_in _
    (λ cv, if decide (recordKey rf cf r
                      = pivotKey (or_else (r !! rf) "(empty)") cv) then 1 else 0)%nat
    cols Hcol) as Hcv.
  simpl in Hrv, Hcv. unfold recordKey in Hcv at 1.
  rewrite decide_True in Hcv by done. lia.
Qed.

Lemma cells_exact (rf cf : string) (rows cols : list string)
    (recs : list (gmap string string)) :
  NoDup rows → NoDup cols →
  (∀ rv, rv ∈ rows → "|"%char ∉ list_ascii_of_string rv) →
  (∀ r, r ∈ recs → or_else (r !! rf) "(empty)" ∈ rows
                   ∧ or_else (r !! cf) "(empty)" ∈ cols) →
  sum_list_with
    (λ rv, sum_list_with
             (λ cv, length (filter (λ r, recordKey rf cf r = pivotKey rv cv) recs))
             cols)
    rows
  = length recs.
Proof.
  intros Hrows Hcols Hbar.
  induction recs as [|r recs IH]; intros Hcover; simpl.
  - erewrite sum_list_with_ext_in; [apply sum_list_with_zero|].
    intros rv _. simpl. apply sum_list_with_zero.
  - erewrite sum_list_with_ext_in; last first.
    { intros rv _. apply sum_list_with_ext_in. intros cv _.
      apply length_filter_cons. }
    erewrite sum_list_with_ext_in; last first.
    { intros rv _. apply sum_list_with_add. }
    rewrite sum_list_with_add, IH; last first.
    { intros r' Hr'. by apply Hcover, list_elem_of_further. }
    destruct (Hcover r (list_elem_of_here _ _)) as [Hrow Hcol].
    match goal with |- (?X + _)%nat = _ => assert (X = 1%nat) as ->; [|lia] end.
    erewrite sum_list_with_ext_in; last first.
    { intros rv Hrv.
      instantiate (1 := λ rv,
        if decide (or_else (r !! rf) "(empty)" = rv) then 1%nat else 0%nat).
      simpl. case_decide as Heq.
      - subst rv. erewrite sum_list_with_ext_in; [by apply indicator_once|].
        intros cv _. simpl. unfold recordKey.
        destruct (decide (or_else (r !! cf) "(empty)" = cv)) as [->|Hne].
        + by rewrite decide_True.
        + rewrite decide_False; [done|].
          intros Hk. apply pivotKey_inj in Hk as [_ ?]; [done|by apply Hbar..].
      - erewrite sum_list_with_ext_in; [apply sum_list_with_zero|].
        intros cv _. simpl. rewrite decide_False; [done|].
        unfold recordKey. intros Hk.
        apply pivotKey_inj in Hk as [? _]; [done|by apply Hbar..]. }
    by apply indicator_once.
Qed.

(** X6. The entry counts shown in the cells of the rendered pivot table add
    up to at least the number of records, since every record lies in the
    cell of its own row and column value; when no row value contains the
    character [|] they add up to exactly that number. *)
Theorem pivotCells_total recs rf cf :
  let p := generatePivotTable recs rf cf in
  (length recs ≤ sum_list (cellCount <$> concat (pivotCells p)))%nat
  ∧ ((∀ r, r ∈ recs →
          "|"%char ∉ list_ascii_of_string (or_else (r !! rf) "(empty)")) →
     sum_list (cellCount <$> concat (pivotCells p)) = length recs).
Proof.
  intros p. rewrite pivotCells_sum.
  destruct (generatePivotTable_axes recs rf cf) as (Hnr & Hnc & Hr & Hc).
  fold p in Hnr, Hnc, Hr, Hc.
  assert (Hcover : ∀ r, r ∈ recs →
    or_else (r !! rf) "(empty)" ∈ rowValues p
    ∧ or_else (r !! cf) "(empty)" ∈ colValues p).
  { intros r Hr'. split; [apply Hr|apply Hc]; eauto. }
  erewrite sum_list_with_ext_in; last first.
  { intros rv _. apply sum_list_with_ext_in. intros cv _.
    unfold p. by rewrite bucket_generatePivotTable. }
  split.
  - by apply cells_cover.
  - intros Hbar. apply cells_exact; try done.
    intros rv (r & Hr' & <-)%Hr. by apply Hbar.
Qed.



End TableFacts.

(** ** Editing the filter configuration *)

Section UpdateFirstFacts.
Context {A : Type} (P : A → bool) (f : A → A).

Lemma updateFirst_split (l : list A) :
  (List.find P l = None ∧ (∀ x, x ∈ l → P x = false) ∧ updateFirst P f l = l)
  ∨ (∃ l1 x l2, l = l1 ++ x :: l2 ∧ P x = true ∧ (∀ y, y ∈ l1 → P y = false)
                ∧ List.find P l = Some x ∧ updateFirst P f l = l1 ++ f x :: l2).
Proof.
  induction l as [|x l IH]; simpl.
  - left. split_and!; [done|by intros ? ?%elem_of_nil|done].
  - destruct (P x) eqn:Hx.
    + right. exists [], x, l. split_and!; try done. by intros ? ?%elem_of_nil.
    + destruct IH as [(Hf & Hall & Hu)|(l1 & y & l2 & -> & Hy & Hl1 & Hf & Hu)].
      * left. split_and!; [done| |by rewrite Hu].
        intros z [->|?]%elem_of_cons; auto.
      * right. exists (x :: l1), y, l2.
        split_and!; [done|done| |done|by rewrite Hu].
        intros z [->|?]%elem_of_cons; auto.
Qed.
End UpdateFirstFacts.

Lemma elem_of_concat {A} (ls : list (list A)) (x : A) :
  x ∈ concat ls ↔ ∃ l, l ∈ ls ∧ x ∈ l.
Proof.
  induction ls as [|l ls IH]; simpl.
  - split; [by intros ?%elem_of_nil|]. by intros (? & ?%elem_of_nil & _).
  - rewrite elem_of_app, IH. split.
    + intros [?|(k & ? & ?)].
      * exists l. split; [apply list_elem_of_here|done].
      * exists k. split; [by apply list_elem_of_further|done].
    + intros (k & [->|?]%elem_of_cons & ?); eauto.
Qed.

Lemma condIds_split (l1 l2 : list group) (g : group) :
  cond_id <$> concat (conditions <$> (l1 ++ g :: l2))
  = (cond_id <$> concat (conditions <$> l1))
    ++ (cond_id <$> conditions g)
    ++ (cond_id <$> concat (conditions <$> l2)).
Proof. rewrite fmap_app, concat_app, fmap_app. csimpl. by rewrite fmap_app. Qed.

Lemma condIds_sublist (l k : list group) :
  l `sublist_of` k →
  (cond_id <$> concat (conditions <$> l))
    `sublist_of` (cond_id <$> concat (conditions <$> k)).
Proof.
  induction 1 as [|g l k Hlk IH|g l k Hlk IH]; csimpl.
  - done.
  - rewrite !fmap_app. by apply sublist_app.
  - rewrite fmap_app. by apply sublist_inserts_l.
Qed.

Lemma condIds_elem (groups : list group) (i : Z) :
  i ∈ cond_id <$> concat (conditions <$> groups)
  ↔ ∃ g c, g ∈ groups ∧ c ∈ conditions g ∧ cond_id c = i.
Proof.
  rewrite list_elem_of_fmap. split.
  - intros (c & -> & Hc). apply elem_of_concat in Hc as (cs & Hcs & Hc).
    apply list_elem_of_fmap in Hcs as (g & -> & Hg). eauto.
  - intros (g & c & Hg & Hc & <-). exists c. split; [done|].
    apply elem_of_concat. exists (conditions g). split; [|done].
    by apply list_elem_of_fmap_2.
Qed.

Lemma ids_fresh_sub (a a' : app) :
  ids_fresh a →
  filterGroups (core a') `sublist_of` filterGroups (core a) →
  nextFilterGroupId a ≤ nextFilterGroupId a' →
  nextFilterConditionId a ≤ nextFilterConditionId a' →
  ids_fresh a'.
Proof.
  intros (Hg & Hgb & Hc & Hcb) Hsub HnG HnC. split_and!.
  - eapply sublist_NoDup; [exact Hg|]. by apply fmap_sublist.
  - intros g Hin. apply (λ H, elem_of_sublist _ _ _ H Hsub) in Hin.
    specialize (Hgb g Hin). lia.
  - eapply sublist_NoDup; [exact Hc|]. by apply condIds_sublist.
  - intros g c Hin Hcin. apply (λ H, elem_of_sublist _ _ _ H Hsub) in Hin.
    specialize (Hcb g c Hin Hcin). lia.
Qed.

Lemma ids_fresh_update (a a' : app) (gid : Z) (f : group → group) :
  ids_fresh a →
  filterGroups (core a') = updateFirst (hasGroupId gid) f (filterGroups (core a)) →
  nextFilterGroupId a' = nextFilterGroupId a →
  nextFilterConditionId a ≤ nextFilterConditionId a' →
  (∀ g, group_id (f g) = group_id g) →
  (∀ g, (cond_id <$> conditions (f g)) `sublist_of` (cond_id <$> conditions g)) →
  ids_fresh a'.
Proof.
  intros Hfresh Hgroups HnG HnC Hid Hsub.
  destruct (updateFirst_split (hasGroupId gid) f (filterGroups (core a)))
    as [(_ & _ & Hu)|(l1 & g & l2 & Hl & _ & _ & _ & Hu)].
  { apply (ids_fresh_sub a); [done| |lia|done]. by rewrite Hgroups, Hu. }
  destruct Hfresh as (Hg & Hgb & Hc & Hcb).
  rewrite Hl in Hg, Hgb, Hc, Hcb. rewrite Hu in Hgroups.
  unfold ids_fresh. rewrite Hgroups, HnG. split_and!.
  - rewrite fmap_app, fmap_cons, Hid. by rewrite fmap_app, fmap_cons in Hg.
  - intros g' [?|[->|?]%elem_of_cons]%elem_of_app.
    + apply Hgb, elem_of_app. tauto.
    + rewrite Hid. apply Hgb, elem_of_app. right. apply list_elem_of_here.
    + apply Hgb, elem_of_app. right. by apply list_elem_of_further.
  - rewrite condIds_split in *. eapply sublist_NoDup; [exact Hc|].
    apply sublist_app; [done|]. by apply sublist_app.
  - assert (∀ i, i ∈ cond_id <$> concat (conditions <$> (l1 ++ f g :: l2)) →
                 i < nextFilterConditionId a) as Hb.
    { intros i Hi. assert (i ∈ cond_id <$> concat (conditions <$> (l1 ++ g :: l2))) as Hi'.
      { rewrite condIds_split in *. eapply elem_of_sublist; [exact Hi|].
        apply sublist_app; [done|]. by apply sublist_app. }
      apply condIds_elem in Hi' as (g0 & c0 & ? & ? & <-). eauto. }
    intros g' c' Hg' Hc'. specialize (Hb (cond_id c')).
    assert (cond_id c' < nextFilterConditionId a); [|lia].
    apply Hb, condIds_elem. eauto.
Qed.

Lemma ids_fresh_push (a a' : app) (gid : Z) (c : condition) :
  ids_fresh a →
  filterGroups (core a')
  = updateFirst (hasGroupId gid) (λ g, set_conditions (conditions g ++ [c]) g)
      (filterGroups (core a)) →
  nextFilterGroupId a' = nextFilterGroupId a →
  nextFilterConditionId a' = nextFilterConditionId a + 1 →
  cond_id c = nextFilterConditionId a →
  ids_fresh a'.
Proof.
  intros Hfresh Hgroups HnG HnC Hcid.
  destruct (updateFirst_split (hasGroupId gid)
              (λ g, set_conditions (conditions g ++ [c]) g) (filterGroups (core a)))
    as [(_ & _ & Hu)|(l1 & g & l2 & Hl & _ & _ & _ & Hu)].
  { apply (ids_fresh_sub a); [done| |lia|lia]. by rewrite Hgroups, Hu. }
  destruct Hfresh as (Hg & Hgb & Hc & Hcb).
  assert (Hnew : nextFilterConditionId a
                 ∉ cond_id <$> concat (conditions <$> filterGroups (core a))).
  { intros (g0 & c0 & Hg0 & Hc0 & Hi)%condIds_elem.
    specialize (Hcb g0 c0 Hg0 Hc0). lia. }
  rewrite Hl in Hg, Hgb, Hc, Hcb, Hnew. rewrite Hu in Hgroups.
  unfold ids_fresh. rewrite Hgroups, HnG, HnC. split_and!.
  - by rewrite fmap_app, fmap_cons in *.
  - intros g' [?|[->|?]%elem_of_cons]%elem_of_app.
    + apply Hgb, elem_of_app. tauto.
    + simpl. apply Hgb, elem_of_app. right. apply list_elem_of_here.
    + apply Hgb, elem_of_app. right. by apply list_elem_of_further.
  - rewrite condIds_split in *. simpl. rewrite fmap_app. simpl. rewrite Hcid.
    rewrite <-!(assoc_L (++)). simpl.
    replace ((cond_id <$> concat (conditions <$> l1)) ++
             (cond_id <$> conditions g) ++
             nextFilterConditionId a :: (cond_id <$> concat (conditions <$> l2)))
      with (((cond_id <$> concat (conditions <$> l1)) ++ (cond_id <$> conditions g))
            ++ nextFilterConditionId a :: (cond_id <$> concat (conditions <$> l2)))
      by (by rewrite <-(assoc_L (++))).
    rewrite <-Permutation_middle. apply NoDup_cons. split.
    + by rewrite <-(assoc_L (++)).
    + by rewrite <-(assoc_L (++)).
  - intros g' c' [?|[->|?]%elem_of_cons]%elem_of_app Hc'.
    + assert (cond_id c' < nextFilterConditionId a); [|lia].
      eapply Hcb; [|done]. apply elem_of_app. tauto.
    + simpl in Hc'. apply elem_of_app in Hc' as [Hc'|Hc'%list_elem_of_singleton].
      * assert (cond_id c' < nextFilterConditionId a); [|lia].
        eapply Hcb; [|done]. apply elem_of_app. right. apply list_elem_of_here.
      * subst c'. lia.
    + assert (cond_id c' < nextFilterConditionId a); [|lia].
      eapply Hcb; [|done]. apply elem_of_app. right. by apply list_elem_of_further.
Qed.

Section SessionFacts.
Context `{H : Host}.

Lemma getFieldValues_frame f s :
  filterGroups (getFieldValues f s).2 = filterGroups s
  ∧ records (getFieldValues f s).2 = records s
  ∧ fields (getFieldValues f s).2 = fields s
  ∧ database (getFieldValues f s).2 = database s.
Proof. unfold getFieldValues. by destruct (fieldValuesCache s !! f). Qed.

Lemma render_frame (groups : list group) (s : state) :
  let s' := foldl (λ s group,
                     foldl (λ s condition, (getFieldValues (field condition) s).2)
                           s (conditions group))
                  s groups in
  filterGroups s' = filterGroups s ∧ records s' = records s
  ∧ fields s' = fields s ∧ database s' = database s.
Proof.
  revert s. induction groups as [|g groups IH]; intros s; simpl; [done|].
  assert (Hin : ∀ cs s0,
    let s1 := foldl (λ s condition, (getFieldValues (field condition) s).2) s0 cs in
    filterGroups s1 = filterGroups s0 ∧ records s1 = records s0
    ∧ fields s1 = fields s0 ∧ database s1 = database s0).
  { induction cs as [|c cs IHc]; intros s0; simpl; [done|].
    destruct (IHc (getFieldValues (field c) s0).2) as (-> & -> & -> & ->).
    apply getFieldValues_frame. }
  destruct (IH (foldl (λ s condition, (getFieldValues (field condition) s).2)
                  s (conditions g))) as (-> & -> & -> & ->).
  apply Hin.
Qed.

Lemma renderFilterGroups_frame (s : state) :
  filterGroups (renderFilterGroups s) = filterGroups s
  ∧ records (renderFilterGroups s) = records s
  ∧ fields (renderFilterGroups s) = fields s
  ∧ database (renderFilterGroups s) = database s.
Proof. apply render_frame. Qed.

Lemma renderFilterGroups_groups (s : state) :
  filterGroups (renderFilterGroups s) = filterGroups s.
Proof. apply renderFilterGroups_frame. Qed.

Lemma handleFileSelect_groups event s :
  filterGroups (handleFileSelect event s) = filterGroups s.
Proof.
  unfold handleFileSelect. destruct event as [fl|]; [|done].
  destruct (parsed fl) as [[recs flds]|]; [|done]. by case_decide.
Qed.

Lemma updateFirst_ids (P : condition → bool) (f : condition → condition)
    (cs : list condition) :
  (∀ c, cond_id (f c) = cond_id c) →
  cond_id <$> updateFirst P f cs = cond_id <$> cs.
Proof.
  intros Hid. induction cs as [|c cs IH]; simpl; [done|].
  destruct (P c); csimpl; [by rewrite Hid|by rewrite IH].
Qed.

Lemma applyControl_id k c : cond_id (applyControl k c) = cond_id c.
Proof. by destruct k. Qed.

Lemma step_ids_fresh (a : app) (act : action) :
  ids_fresh a → ids_fresh (step a act).
Proof.
  intros Hfresh.
  destruct act as [|gid|gid cid|gid| |element|gid v|gid cid sel|event]; simpl.
  - (* a new group *)
    destruct Hfresh as (Hg & Hgb & Hc & Hcb).
    unfold ids_fresh, addFilterGroupClick. simpl.
    rewrite renderFilterGroups_groups. simpl. split_and!.
    + rewrite fmap_app. simpl. apply NoDup_app. split_and!; [done| |apply NoDup_singleton].
      intros i (g & -> & Hin)%list_elem_of_fmap Hi%list_elem_of_singleton.
      specialize (Hgb g Hin). lia.
    + intros g [Hin|Hin%list_elem_of_singleton]%elem_of_app;
        [|subst g; simpl; lia].
      specialize (Hgb g Hin). lia.
    + rewrite fmap_app, concat_app. simpl. by rewrite !app_nil_r.
    + intros g c [Hin|Hin%list_elem_of_singleton]%elem_of_app Hcin.
      * eauto.
      * subst g. by apply elem_of_nil in Hcin.
  - (* a new condition *)
    unfold addConditionClick, addFilterCondition.
    destruct (List.find (hasGroupId gid) (filterGroups (core a))) as [g0|] eqn:Hfind; simpl.
    + eapply (ids_fresh_push a _ gid); [done| | | |]; simpl;
        [by rewrite renderFilterGroups_groups|done..].
    + apply (ids_fresh_sub a); simpl; [done| |lia|lia].
      by rewrite renderFilterGroups_groups.
  - (* a condition removed *)
    unfold removeFilterCondition.
    destruct (List.find (hasGroupId gid) (filterGroups (core a))) as [g0|]; [|done].
    eapply (ids_fresh_update a _ gid); [done| | | | |]; simpl;
      [by rewrite renderFilterGroups_groups|done|lia|done|].
    intros g. simpl. apply fmap_sublist, sublist_filter.
  - (* a group removed *)
    apply (ids_fresh_sub a); simpl; [done| |lia|lia].
    rewrite renderFilterGroups_groups. simpl. apply sublist_filter.
  - (* all filters cleared *)
    unfold ids_fresh, clearAllFilters. simpl.
    split_and!; [constructor|by intros ? ?%elem_of_nil|constructor
                |by intros ? ? ?%elem_of_nil].
  - (* a control edited *)
    eapply (ids_fresh_update a _ (groupId element)); [done| | | | |]; simpl;
      [done|done|lia|done|].
    intros g. simpl. by rewrite updateFirst_ids by apply applyControl_id.
  - (* the logic of a group *)
    eapply (ids_fresh_update a _ gid); [done| | | | |]; simpl;
      [done|done|lia|done|done].
  - (* the selected values *)
    eapply (ids_fresh_update a _ gid); [done| | | | |]; simpl;
      [done|done|lia|done|].
    intros g. simpl. by rewrite updateFirst_ids.
  - (* a file selected *)
    apply (ids_fresh_sub a); simpl; [done| |lia|lia].
    by rewrite handleFileSelect_groups.
Qed.

(** X8. Whatever the user does to the filters (adding and removing groups
    and conditions, editing them, clearing all, loading files), no two
    groups share an id, no two conditions share an id, and every id in use
    is below the counter that will number the next group or condition. *)
Theorem ids_stay_fresh (acts : list action) : ids_fresh (run acts start).
Proof.
  unfold run.
  assert (Hstart : ids_fresh start).
  { unfold ids_fresh, start. simpl.
    split_and!; [constructor|by intros ? ?%elem_of_nil|constructor
                |by intros ? ? ?%elem_of_nil]. }
  revert Hstart. generalize start.
  induction acts as [|act acts IH]; intros a Ha; simpl; [done|].
  by apply IH, step_ids_fresh.
Qed.

End SessionFacts.

Section UpdateAt.
Context {A : Type} (P : A → bool) (f : A → A).


Lemma updateFirst_none (l : list A) :
  (∀ y, y ∈ l → P y = false) →
  List.find P l = None ∧ updateFirst P f l = l.
Proof.
  intros Hl. induction l as [|y l IH]; simpl; [done|].
  rewrite (Hl y) by apply list_elem_of_here.
  destruct IH as [-> ->]; [|done].
  intros z Hz. by apply Hl, list_elem_of_further.
Qed.
End UpdateAt.

Lemma filter_all {A} (P : A → Prop) `{!∀ x, Decision (P x)} (l : list A) :
  (∀ x, x ∈ l → P x) → filter P l = l.
Proof.
  induction l as [|x l IH]; intros Hl; [done|].
  rewrite filter_cons_True by apply Hl, list_elem_of_here.
  rewrite IH; [done|]. intros y Hy. by apply Hl, list_elem_of_further.
Qed.

Lemma session_eta (a : app) :
  set_core (set_filterGroups (filterGroups (core a)) (core a)) a = a.
Proof. by destruct a as [[] ? ? ? ? ? ? ?]. Qed.

Section FilterEditing.
Context `{H : Host}.

Lemma applyFilters_returns (st : state) (recs : list (gmap string string)) :
  returns (applyFilters st recs)
    (if decide (filterGroups st = []) then recs
     else filter (λ record,
                    Exists (λ g, returns (evaluateFilterGroup record g) true)
                      (filterGroups st))
            recs).
Proof.
  unfold applyFilters. destruct (filterGroups st) as [|g gs] eqn:Hg.
  - by apply returns_ret.
  - rewrite decide_False by done. rewrite decide_False by done.
    pose proof (Array_filter_returns
      (λ record, some (λ g, evaluateFilterGroup record g) (g :: gs))
      (matchesSome_total (g :: gs)) recs) as Hf.
    erewrite list_filter_iff; [exact Hf|].
    intros record. split.
    + intros Hex. pose proof (some_returns _ (evaluateFilterGroup_total record)
        (g :: gs)) as Hs.
      by rewrite bool_decide_eq_true_2 in Hs.
    + intros Ht. eapply bool_decide_eq_true, returns_inj; [|exact Ht].
      apply some_returns, evaluateFilterGroup_total.
Qed.

(** X9. Right after "Add Filter Group" is clicked, the filter lets every
    record through, whatever groups were configured before: the new group
    has no conditions and so matches everything. *)
Theorem new_group_passes_all (a : app) (recs : list (gmap string string)) :
  returns (applyFilters (core (addFilterGroupClick a)) recs) recs.
Proof.
  pose proof (applyFilters_returns (core (addFilterGroupClick a)) recs) as Hr.
  unfold addFilterGroupClick in *. simpl in *.
  rewrite renderFilterGroups_groups in Hr. simpl in Hr.
  rewrite decide_False in Hr by (by destruct (filterGroups (core a))).
  rewrite filter_all in Hr; [done|].
  intros record _. apply Exists_exists.
  exists (Group (nextFilterGroupId a) "AND" []). split.
  - apply elem_of_app. right. apply list_elem_of_here.
  - apply (evaluateFilterGroup_returns record (Group (nextFilterGroupId a) "AND" [])).
Qed.

Lemma fresh_condition_true record (i : Z) (f : string) :
  evaluateCondition record (Condition i f "equals" "" [] false false) = mret true.
Proof.
  rewrite (evaluateCondition_unfold record _ true []); [done|].
  by apply conditionResult_empty_value.
Qed.

Lemma evaluateFilterGroup_and record (g : group) :
  logic g = "AND" →
  returns (evaluateFilterGroup record g)
    (bool_decide (Forall (λ c, returns (evaluateCondition record c) true)
                    (conditions g))).
Proof.
  intros Hand. pose proof (evaluateFilterGroup_returns record g) as Hg.
  destruct (conditions g) as [|c cs]; [done|]. by rewrite decide_True in Hg.
Qed.

Lemma evaluateFilterGroup_or record (g : group) :
  logic g ≠ "AND" → conditions g ≠ [] →
  returns (evaluateFilterGroup record g)
    (bool_decide (Exists (λ c, returns (evaluateCondition record c) true)
                    (conditions g))).
Proof.
  intros Hor Hne. pose proof (evaluateFilterGroup_returns record g) as Hg.
  destruct (conditions g) as [|c cs]; [done|]. by rewrite decide_False in Hg.
Qed.

Lemma returns_iff {A} (m m' : JS A) (v b : A) :
  returns m v → returns m' v → returns m b ↔ returns m' b.
Proof. unfold returns. intros -> ->. done. Qed.

Lemma append_true_condition record (g : group) (c : condition) :
  returns (evaluateCondition record c) true →
  (logic g = "AND" → ∀ b,
     returns (evaluateFilterGroup record (set_conditions (conditions g ++ [c]) g)) b
     ↔ returns (evaluateFilterGroup record g) b)
  ∧ (logic g ≠ "AND" →
     returns (evaluateFilterGroup record (set_conditions (conditions g ++ [c]) g))
             true).
Proof.
  intros Hc. split.
  - intros Hand b.
    eapply returns_iff; [|by apply evaluateFilterGroup_and].
    pose proof (evaluateFilterGroup_and record
      (set_conditions (conditions g ++ [c]) g) Hand) as Hg'.
    simpl in Hg'. erewrite bool_decide_ext; [exact Hg'|].
    rewrite Forall_app. split; [|tauto]. intros ?. split; [done|].
    by repeat constructor.
  - intros Hor.
    pose proof (evaluateFilterGroup_or record
      (set_conditions (conditions g ++ [c]) g) Hor) as Hg'.
    simpl in Hg'. rewrite bool_decide_eq_true_2 in Hg'.
    + apply Hg'. by destruct (conditions g).
    + apply Exists_app. right. by constructor.
Qed.

(** X10. The condition that "Add Condition" creates is true of every
    record.  Appended to a group with logic AND it leaves the group's
    verdict on every record as it was; appended to a group with any other
    logic it makes the group match every record. *)
Theorem fresh_condition (a a' : app) (gid : Z) (c : condition) :
  addFilterCondition gid a = (Some c, a') →
  (∀ record, returns (evaluateCondition record c) true)
  ∧ (∀ record g b, logic g = "AND" →
       returns (evaluateFilterGroup record (set_conditions (conditions g ++ [c]) g)) b
       ↔ returns (evaluateFilterGroup record g) b)
  ∧ (∀ record g, logic g ≠ "AND" →
       returns (evaluateFilterGroup record (set_conditions (conditions g ++ [c]) g))
               true).
Proof.
  unfold addFilterCondition.
  destruct (List.find (hasGroupId gid) (filterGroups (core a))) as [g0|]; [|done].
  intros [= <- _].
  assert (Htrue : ∀ record, returns (evaluateCondition record
            (Condition (nextFilterConditionId a) (or_else (head (fields (core a))) "")
               "equals" "" [] false false)) true).
  { intros record. unfold returns. by rewrite fresh_condition_true. }
  split_and!; [done| |].
  - intros record g b Hand. by apply append_true_condition.
  - intros record g Hor. by apply append_true_condition.
Qed.


(** X12. An event addressed to a group id that no group carries changes
    nothing: addFilterCondition returns undefined without advancing the
    counter, and removing a condition, editing a control, setting the
    logic or the selected values leave the session untouched. *)
Theorem unknown_group_ignored (a : app) (gid cid : Z) (k : control_kind)
    (v : string) (sel : list string) :
  (∀ g, g ∈ filterGroups (core a) → group_id g ≠ gid) →
  addFilterCondition gid a = (None, a)
  ∧ removeFilterCondition gid cid a = a
  ∧ updateConditionField (Control gid cid k) a = a
  ∧ setLogic gid v a = a
  ∧ setValues gid cid sel a = a.
Proof.
  intros Hno.
  assert (Hall : ∀ g, g ∈ filterGroups (core a) → hasGroupId gid g = false).
  { intros g Hg. apply bool_decide_eq_false. by apply Hno. }
  unfold addFilterCondition, removeFilterCondition, updateConditionField,
    setLogic, setValues. simpl.
  split_and!.
  - by destruct (updateFirst_none (hasGroupId gid) id _ Hall) as [-> _].
  - by destruct (updateFirst_none (hasGroupId gid) id _ Hall) as [-> _].
  - destruct (updateFirst_none (hasGroupId gid)
      (λ g, set_conditions (updateFirst (hasConditionId cid) (applyControl k)
                              (conditions g)) g) _ Hall) as [_ ->].
    apply session_eta.
  - destruct (updateFirst_none (hasGroupId gid)
      (λ g, Group (group_id g) v (conditions g)) _ Hall) as [_ ->].
    apply session_eta.
  - destruct (updateFirst_none (hasGroupId gid)
      (λ g, set_conditions
              (updateFirst (hasConditionId cid)
                 (λ c, Condition (cond_id c) (field c) (operator c) (value c)
                                 sel (useRegex c) (negate c))
                 (conditions g)) g) _ Hall) as [_ ->].
    apply session_eta.
Qed.

End FilterEditing.

(** ** Generating and refreshing the pivot *)


Section PivotPipeline.
Context `{H : Host}.




End PivotPipeline.

(** ** Column preferences *)

Lemma indexOf_absent (l : list string) (x : string) : x ∉ l → indexOf l x = -1.
Proof.
  induction l as [|y l IH]; simpl; [done|].
  rewrite not_elem_of_cons. intros [Hxy Hx].
  rewrite decide_False by done. rewrite IH by done. done.
Qed.

Lemma indexOf_first (l1 l2 : list string) (x : string) :
  x ∉ l1 → indexOf (l1 ++ x :: l2) x = Z.of_nat (length l1).
Proof.
  induction l1 as [|y l1 IH]; simpl.
  - intros _. by rewrite decide_True.
  - rewrite not_elem_of_cons. intros [Hxy Hx].
    rewrite decide_False by done. rewrite IH by done.
    rewrite decide_False by lia. lia.
Qed.

Lemma first_occurrence (l : list string) (x : string) :
  x ∈ l → ∃ l1 l2, l = l1 ++ x :: l2 ∧ x ∉ l1.
Proof.
  induction l as [|y l IH]; [by intros ?%elem_of_nil|].
  destruct (decide (x = y)) as [->|Hxy].
  - intros _. exists [], l. split; [done|]. apply not_elem_of_nil.
  - intros [?|Hx]%elem_of_cons; [done|].
    destruct (IH Hx) as (l1 & l2 & -> & Hl1).
    exists (y :: l1), l2. split; [done|]. rewrite not_elem_of_cons. done.
Qed.

Lemma splice_delete {A} (l1 l2 : list A) (x : A) :
  splice (l1 ++ x :: l2) (Z.of_nat (length l1)) 1 [] = l1 ++ l2.
Proof.
  unfold splice. rewrite decide_False by lia.
  match goal with |- context [Z.to_nat ?e] =>
    replace (Z.to_nat e) with (length l1) by (rewrite length_app; simpl; lia) end.
  rewrite take_app_length, drop_app_ge by lia.
  replace (length l1 + 1 - length l1)%nat with 1%nat by lia. done.
Qed.

Lemma splice_insert {A} (l1 l2 : list A) (x : A) :
  splice (l1 ++ l2) (Z.of_nat (length l1)) 0 [x] = l1 ++ x :: l2.
Proof.
  unfold splice. rewrite decide_False by lia.
  match goal with |- context [Z.to_nat ?e] =>
    replace (Z.to_nat e) with (length l1) by (rewrite length_app; lia) end.
  rewrite take_app_length, Nat.add_0_r, drop_app_length. done.
Qed.

Lemma splice_last {A} (l : list A) : splice l (-1) 1 [] = removelast l.
Proof.
  unfold splice. rewrite decide_True by lia.
  destruct l as [|x l _] using rev_ind; [done|].
  rewrite removelast_last.
  match goal with |- context [Z.to_nat ?e] =>
    replace (Z.to_nat e) with (length l) by (rewrite length_app; simpl; lia) end.
  rewrite take_app_length, drop_app_ge by lia.
  replace (length l + 1 - length l)%nat with 1%nat by lia. simpl.
  by rewrite app_nil_r.
Qed.

(** X15. Dragging the header of one column onto another moves the dragged
    field to the place just before the target: the new order is the old one
    with the first occurrence of the dragged field taken out and put back
    directly in front of the first occurrence of the target.  The order
    stays a permutation of the old one and the visibility flags are not
    touched. *)
Theorem reorderColumns_moves (d t : string) (p : prefs) :
  d ∈ order p → t ∈ order p → d ≠ t →
  ∃ l1 l2 k1 k2,
    order p = l1 ++ d :: l2 ∧ (d ∉ l1)
    ∧ l1 ++ l2 = k1 ++ t :: k2 ∧ (t ∉ k1)
    ∧ order (reorderColumns d t p) = k1 ++ d :: t :: k2
    ∧ order (reorderColumns d t p) ≡ₚ order p
    ∧ visible (reorderColumns d t p) = visible p.
Proof.
  intros Hd Ht Hdt.
  destruct (first_occurrence _ _ Hd) as (l1 & l2 & Hl & Hl1).
  assert (Ht' : t ∈ l1 ++ l2).
  { rewrite Hl in Ht. apply elem_of_app in Ht as [?|[?|?]%elem_of_cons];
      [|done|]; apply elem_of_app; tauto. }
  destruct (first_occurrence _ _ Ht') as (k1 & k2 & Hk & Hk1).
  exists l1, l2, k1, k2.
  assert (Horder : order (reorderColumns d t p) = k1 ++ d :: t :: k2).
  { unfold reorderColumns. simpl. rewrite Hl.
    rewrite indexOf_first, splice_delete by done.
    rewrite Hk, indexOf_first by done. apply splice_insert. }
  split_and!; try done.
  rewrite Horder, Hl. rewrite <-Permutation_middle.
  rewrite <-(Permutation_middle l1 l2 d). by rewrite Hk.
Qed.

(** X16. When the dragged field is not in the stored order, reorderColumns
    drops the last column of the order and inserts the dragged field in its
    stead somewhere among the remaining ones. *)
Theorem reorderColumns_absent (d t : string) (p : prefs) :
  d ∉ order p →
  ∃ k1 k2, removelast (order p) = k1 ++ k2
           ∧ order (reorderColumns d t p) = k1 ++ d :: k2.
Proof.
  intros Hd. unfold reorderColumns. simpl.
  rewrite (indexOf_absent _ _ Hd), splice_last.
  unfold splice. eexists _, _. split; [|done].
  by rewrite Nat.add_0_r, take_drop.
Qed.






(** ** Edits reach their target, and only it *)


Section Targets.
Context `{H : Host}.


(** ** The cache only grows *)

Lemma getFieldValues_keeps f s g v :
  fieldValuesCache s !! g = Some v →
  fieldValuesCache (getFieldValues f s).2 !! g = Some v.
Proof.
  intros Hg. unfold getFieldValues.
  destruct (fieldValuesCache s !! f) eqn:Hf; simpl; [done|].
  rewrite lookup_insert_ne; [done|]. by intros ->; rewrite Hf in Hg.
Qed.

Lemma renderFilterGroups_keeps s g v :
  fieldValuesCache s !! g = Some v →
  fieldValuesCache (renderFilterGroups s) !! g = Some v.
Proof.
  unfold renderFilterGroups. generalize (filterGroups s) as groups.
  intros groups. revert s. induction groups as [|gr groups IH]; intros s Hs; simpl; [done|].
  apply IH. clear IH. revert s Hs.
  induction (conditions gr) as [|c cs IHc]; intros s Hs; simpl; [done|].
  by apply IHc, getFieldValues_keeps.
Qed.

Lemma step_keeps_cache (a : app) (act : action) f v :
  fieldValuesCache (core a) !! f = Some v →
  fieldValuesCache (core (step a act)) !! f = Some v.
Proof.
  intros Hf.
  destruct act as [|gid|gid cid|gid| |element|gid w|gid cid sel|event]; simpl;
    try done.
  - by apply renderFilterGroups_keeps.
  - unfold addConditionClick, addFilterCondition.
    destruct (List.find _ _); simpl; by apply renderFilterGroups_keeps.
  - unfold removeFilterCondition.
    destruct (List.find _ _); simpl; [|done]. by apply renderFilterGroups_keeps.
  - by apply renderFilterGroups_keeps.
  - by rewrite handleFileSelect_cache.
Qed.

(** X19. Nothing the user can do to the filters, and no file load, ever
    changes or removes a cache entry once getFieldValues has stored it: the
    values cached for a field stay the answer for the rest of the
    session. *)
Theorem cache_entries_stay (acts : list action) (a : app) (f : string)
    (v : list string) :
  fieldValuesCache (core a) !! f = Some v →
  fieldValuesCache (core (run acts a)) !! f = Some v
  ∧ (getFieldValues f (core (run acts a))).1 = v.
Proof.
  intros Hf.
  assert (Hrun : fieldValuesCache (core (run acts a)) !! f = Some v).
  { unfold run. revert a Hf. induction acts as [|act acts IH]; intros a Hf; simpl;
      [done|]. by apply IH, step_keeps_cache. }
  split; [done|]. by rewrite (getFieldValues_hit _ _ _ Hrun).
Qed.

(** ** Loading what was extracted *)


End Targets.

(** * More scenarios *)

(** The comparator of [AsciiHost] is total. *)
Lemma compare_token_antisym (a b : AsciiHost.token) :
  AsciiHost.compare_token b a = CompOpp (AsciiHost.compare_token a b).
Proof.
  destruct a as [m|c], b as [n|d]; simpl.
  - apply N.compare_antisym.
  - by case_decide.
  - by case_decide.
  - apply N.compare_antisym.
Qed.

Lemma compare_tokens_antisym (a b : list AsciiHost.token) :
  AsciiHost.compare_tokens b a = CompOpp (AsciiHost.compare_tokens a b).
Proof.
  revert b. induction a as [|x a IH]; intros [|y b]; simpl; try done.
  rewrite (compare_token_antisym x y).
  destruct (AsciiHost.compare_token x y); simpl; [apply IH|done|done].
Qed.

Lemma localeCompare_total (a b : string) :
  AsciiHost.localeCompare a b ≤ 0 ∨ AsciiHost.localeCompare b a ≤ 0.
Proof.
  unfold AsciiHost.localeCompare.
  rewrite (compare_tokens_antisym (AsciiHost.tokens a None)).
  destruct (AsciiHost.compare_tokens _ _); simpl; lia.
Qed.


Section MoreScenarios.
Existing Instance AsciiHost.host.


Lemma naturalSort_sorted_witness :
  (∀ a b, localeCompare a b ≤ 0 ∨ localeCompare b a ≤ 0)
  ∧ Sorted (λ a b, naturalSort a b ≤ 0)
      (rowValues (generatePivotTable five "Category" "Gloss")).
Proof.
  split; [exact localeCompare_total|].
  apply (naturalSort_sorted (H := AsciiHost.host) five "Category" "Gloss" "Category"
           localeCompare_total).
Defined.


Lemma getFieldValues_again_witness :
  let st' := (getFieldValues "Category" (inAB false)).2 in
  "Gloss" ≠ "Category"
  ∧ fieldValuesCache st' !! "Gloss" = fieldValuesCache (inAB false) !! "Gloss".
Proof.
  intros st'. split; [discriminate|].
  apply (getFieldValues_again "Category" (inAB false)). discriminate.
Defined.

Lemma five_free_of_bar (r : gmap string string) :
  r ∈ five → "|"%char ∉ list_ascii_of_string (or_else (r !! "Category") "(empty)").
Proof.
  unfold five. rewrite !elem_of_cons, elem_of_nil.
  intros [->|[->|[->|[->|[->|[]]]]]]; vm_compute;
    intros Hin; repeat (apply elem_of_cons in Hin as [Hin|Hin]; [discriminate|]);
    by apply elem_of_nil in Hin.
Qed.

Lemma pivotCells_total_witness :
  (∀ r, r ∈ five →
        "|"%char ∉ list_ascii_of_string (or_else (r !! "Category") "(empty)"))
  ∧ sum_list (cellCount <$> concat (pivotCells (generatePivotTable five "Category" "Gloss")))
    = length five.
Proof.
  split; [exact five_free_of_bar|].
  apply (pivotCells_total five "Category" "Gloss"), five_free_of_bar.
Defined.


Lemma fresh_condition_witness :
  ∃ c a', addFilterCondition 1 sampleApp = (Some c, a')
          ∧ ∀ record, returns (evaluateCondition record c) true.
Proof.
  eexists _, _. split; [reflexivity|].
  apply (fresh_condition sampleApp _ 1 _ eq_refl).
Defined.


Lemma sampleApp_no_group_9 (g : group) :
  g ∈ filterGroups (core sampleApp) → group_id g ≠ 9.
Proof. intros Hg%list_elem_of_singleton. by subst g. Qed.

Lemma unknown_group_ignored_witness :
  (∀ g, g ∈ filterGroups (core sampleApp) → group_id g ≠ 9)
  ∧ addFilterCondition 9 sampleApp = (None, sampleApp).
Proof.
  split; [exact sampleApp_no_group_9|].
  apply (unknown_group_ignored sampleApp 9 1 other_control "OR" []
           sampleApp_no_group_9).
Defined.



Lemma reorderColumns_moves_witness :
  "c" ∈ order abc ∧ "a" ∈ order abc ∧ "c" ≠ "a"
  ∧ ∃ l1 l2 k1 k2,
      order abc = l1 ++ "c" :: l2 ∧ ("c" ∉ l1)
      ∧ l1 ++ l2 = k1 ++ "a" :: k2 ∧ ("a" ∉ k1)
      ∧ order (reorderColumns "c" "a" abc) = k1 ++ "c" :: "a" :: k2
      ∧ order (reorderColumns "c" "a" abc) ≡ₚ order abc
      ∧ visible (reorderColumns "c" "a" abc) = visible abc.
Proof.
  assert (Hc : "c" ∈ order abc).
  { do 2 apply list_elem_of_further. apply list_elem_of_here. }
  assert (Ha : "a" ∈ order abc) by apply list_elem_of_here.
  split_and!; [exact Hc|exact Ha|discriminate|].
  apply (reorderColumns_moves "c" "a" abc Hc Ha). discriminate.
Defined.

Lemma abc_without_z : "z" ∉ order abc.
Proof.
  intros Hin. repeat (apply elem_of_cons in Hin as [Hin|Hin]; [discriminate|]).
  by apply elem_of_nil in Hin.
Qed.

Lemma reorderColumns_absent_witness :
  ("z" ∉ order abc)
  ∧ ∃ k1 k2, removelast (order abc) = k1 ++ k2
             ∧ order (reorderColumns "z" "a" abc) = k1 ++ "z" :: k2.
Proof.
  split; [exact abc_without_z|].
  apply (reorderColumns_absent "z" "a" abc abc_without_z).
Defined.



Lemma cache_entries_stay_witness :
  fieldValuesCache (core cached) !! "Category" = Some ["A"; "B"; "C"]
  ∧ (getFieldValues "Category"
       (core (run [AddGroup; AddCondition 1; SelectFile None; ClearAll] cached))).1
    = ["A"; "B"; "C"].
Proof.
  split; [reflexivity|].
  by apply (cache_entries_stay _ cached "Category" ["A"; "B"; "C"]).
Defined.

End MoreScenarios.
